(** * link: the {packet, N} framing protocol (protocol.go)

    A shallow embedding of [SimpleProtocol] and of the three operations
    [Packet], [Write] and [Read], together with the parts of the Go
    runtime and standard library they rest on: slices with length and
    capacity, the conversions between integer types, [encoding/binary]'s
    fixed-width byte orders, [io.ReadFull] and [io.Writer].

    Go's [int] is taken to be 64 bits wide.  Running out of memory is not
    modelled: an allocation whose length and capacity are consistent
    succeeds. *)

From Stdlib Require Import ZArith Lia String.
From Stdlib.Strings Require Import Byte.
From stdpp Require Import base list.

Local Open Scope Z_scope.

(** ** Runtime panics and returned errors *)

Inductive panic : Type :=
  | UnsupportedPacketHeadSize
  | MakesliceLenOutOfRange
  | MakesliceCapOutOfRange
  | SliceBoundsOutOfRange
  | IndexOutOfRange.


(** Modelled from the spec: [PacketTooLargeError] is declared outside
    protocol.go; it is the single sentinel both guards return.  The other
    values of a Go [error] that occur here: [EOF] and [ErrUnexpectedEOF]
    are [io]'s, the last two stand for what a transport or a [Message]
    may return. *)
Inductive error : Type :=
  | PacketTooLargeError
  | EOF
  | ErrUnexpectedEOF
  | TransportError (code : nat)
  | MessageError (code : nat).

Definition error_eqb (a b : error) : bool :=
  match a, b with
  | PacketTooLargeError, PacketTooLargeError => true
  | EOF, EOF => true
  | ErrUnexpectedEOF, ErrUnexpectedEOF => true
  | TransportError x, TransportError y => Nat.eqb x y
  | MessageError x, MessageError y => Nat.eqb x y
  | _, _ => false
  end.

(** A computation either returns or panics. *)
Inductive exec (A : Type) : Type :=
  | Ret (a : A)
  | Panic (p : panic).
Arguments Ret {A} a.
Arguments Panic {A} p.

Definition bind {A B : Type} (m : exec A) (k : A -> exec B) : exec B :=
  match m with
  | Ret a => k a
  | Panic p => Panic p
  end.

Notation "x <- m ;; k" := (bind m (fun x => k))
  (at level 100, m at next level, right associativity).

(** ** Integers *)

Definition int_size : Z := 64.
Definition max_int : Z := 2 ^ (int_size - 1) - 1.

(** Conversion of an unsigned value to [int]: two's complement wrap. *)
Definition to_int (z : Z) : Z :=
  (z + 2 ^ (int_size - 1)) mod 2 ^ int_size - 2 ^ (int_size - 1).

Definition to_uint16 (z : Z) : Z := z mod 2 ^ 16.
Definition to_uint32 (z : Z) : Z := z mod 2 ^ 32.
Definition to_uint64 (z : Z) : Z := z mod 2 ^ 64.

(** ** Bytes *)

Definition byte_of_Z (z : Z) : byte :=
  match Byte.of_N (Z.to_N (z mod 256)) with
  | Some b => b
  | None => x00
  end.

Definition Z_of_byte (b : byte) : Z := Z.of_N (Byte.to_N b).

#[global] Instance byte_inhabited : Inhabited byte := populate x00.

(** ** Slices

    A [[]byte] is the visible elements followed by the rest of the
    backing array up to the capacity.  Reslicing within the capacity
    moves the boundary and keeps every stored byte. *)

Record slice : Type := mkSlice { elems : list byte; spare : list byte }.

Definition slice_len (s : slice) : Z := Z.of_nat (length (elems s)).
Definition slice_cap (s : slice) : Z :=
  Z.of_nat (length (elems s) + length (spare s)).
Definition backing (s : slice) : list byte := elems s ++ spare s.

Definition nil_slice : slice := mkSlice [] [].

(** [make([]byte, l, c)] *)
Definition make_slice (l c : Z) : exec slice :=
  if l <? 0 then Panic MakesliceLenOutOfRange
  else if c <? l then Panic MakesliceCapOutOfRange
  else Ret (mkSlice (replicate (Z.to_nat l) x00)
                    (replicate (Z.to_nat c - Z.to_nat l)%nat x00)).

(** [s[:hi]] and [s[0:hi]] *)
Definition reslice (s : slice) (hi : Z) : exec slice :=
  if (hi <? 0) || (slice_cap s <? hi) then Panic SliceBoundsOutOfRange
  else Ret (mkSlice (take (Z.to_nat hi) (backing s))
                    (drop (Z.to_nat hi) (backing s))).

(** [append(s, p...)]: in place when the capacity allows, otherwise into
    a fresh array of at least twice the old capacity. *)
Definition append_slice (s : slice) (p : list byte) : slice :=
  if (length p <=? length (spare s))%nat
  then mkSlice (elems s ++ p) (drop (length p) (spare s))
  else mkSlice (elems s ++ p)
               (replicate (length (elems s) + length (spare s)) x00).

(** Overwrite the first bytes of the visible part, as a read into the
    slice does. *)
Definition fill (s : slice) (got : list byte) : slice :=
  mkSlice (got ++ drop (length got) (elems s)) (spare s).

(** ** encoding/binary *)

Inductive ByteOrder : Type := BigEndian | LittleEndian.

Definition at_index (b : list byte) (i : nat) : Z := Z_of_byte (b !!! i).

Definition PutUint16 (bo : ByteOrder) (b : list byte) (v : Z) : exec (list byte) :=
  if (length b <? 2)%nat then Panic IndexOutOfRange
  else Ret match bo with
    | BigEndian =>
        <[1%nat := byte_of_Z v]> (<[0%nat := byte_of_Z (Z.shiftr v 8)]> b)
    | LittleEndian =>
        <[1%nat := byte_of_Z (Z.shiftr v 8)]> (<[0%nat := byte_of_Z v]> b)
    end.

Definition Uint16 (bo : ByteOrder) (b : list byte) : exec Z :=
  if (length b <? 2)%nat then Panic IndexOutOfRange
  else Ret match bo with
    | BigEndian =>
        Z.lor (at_index b 1) (Z.shiftl (at_index b 0) 8)
    | LittleEndian =>
        Z.lor (at_index b 0) (Z.shiftl (at_index b 1) 8)
    end.

Definition PutUint32 (bo : ByteOrder) (b : list byte) (v : Z) : exec (list byte) :=
  if (length b <? 4)%nat then Panic IndexOutOfRange
  else Ret match bo with
    | BigEndian =>
        <[3%nat := byte_of_Z v]>
        (<[2%nat := byte_of_Z (Z.shiftr v 8)]>
        (<[1%nat := byte_of_Z (Z.shiftr v 16)]>
        (<[0%nat := byte_of_Z (Z.shiftr v 24)]> b)))
    | LittleEndian =>
        <[3%nat := byte_of_Z (Z.shiftr v 24)]>
        (<[2%nat := byte_of_Z (Z.shiftr v 16)]>
        (<[1%nat := byte_of_Z (Z.shiftr v 8)]>
        (<[0%nat := byte_of_Z v]> b)))
    end.

Definition Uint32 (bo : ByteOrder) (b : list byte) : exec Z :=
  if (length b <? 4)%nat then Panic IndexOutOfRange
  else Ret match bo with
    | BigEndian =>
        Z.lor (Z.lor (Z.lor (at_index b 3)
          (Z.shiftl (at_index b 2) 8))
          (Z.shiftl (at_index b 1) 16))
          (Z.shiftl (at_index b 0) 24)
    | LittleEndian =>
        Z.lor (Z.lor (Z.lor (at_index b 0)
          (Z.shiftl (at_index b 1) 8))
          (Z.shiftl (at_index b 2) 16))
          (Z.shiftl (at_index b 3) 24)
    end.

Definition PutUint64 (bo : ByteOrder) (b : list byte) (v : Z) : exec (list byte) :=
  if (length b <? 8)%nat then Panic IndexOutOfRange
  else Ret match bo with
    | BigEndian =>
        <[7%nat := byte_of_Z v]>
        (<[6%nat := byte_of_Z (Z.shiftr v 8)]>
        (<[5%nat := byte_of_Z (Z.shiftr v 16)]>
        (<[4%nat := byte_of_Z (Z.shiftr v 24)]>
        (<[3%nat := byte_of_Z (Z.shiftr v 32)]>
        (<[2%nat := byte_of_Z (Z.shiftr v 40)]>
        (<[1%nat := byte_of_Z (Z.shiftr v 48)]>
        (<[0%nat := byte_of_Z (Z.shiftr v 56)]> b)))))))
    | LittleEndian =>
        <[7%nat := byte_of_Z (Z.shiftr v 56)]>
        (<[6%nat := byte_of_Z (Z.shiftr v 48)]>
        (<[5%nat := byte_of_Z (Z.shiftr v 40)]>
        (<[4%nat := byte_of_Z (Z.shiftr v 32)]>
        (<[3%nat := byte_of_Z (Z.shiftr v 24)]>
        (<[2%nat := byte_of_Z (Z.shiftr v 16)]>
        (<[1%nat := byte_of_Z (Z.shiftr v 8)]>
        (<[0%nat := byte_of_Z v]> b)))))))
    end.

Definition Uint64 (bo : ByteOrder) (b : list byte) : exec Z :=
  if (length b <? 8)%nat then Panic IndexOutOfRange
  else Ret match bo with
    | BigEndian =>
        Z.lor (Z.lor (Z.lor (Z.lor (Z.lor (Z.lor (Z.lor (at_index b 7)
          (Z.shiftl (at_index b 6) 8))
          (Z.shiftl (at_index b 5) 16))
          (Z.shiftl (at_index b 4) 24))
          (Z.shiftl (at_index b 3) 32))
          (Z.shiftl (at_index b 2) 40))
          (Z.shiftl (at_index b 1) 48))
          (Z.shiftl (at_index b 0) 56)
    | LittleEndian =>
        Z.lor (Z.lor (Z.lor (Z.lor (Z.lor (Z.lor (Z.lor (at_index b 0)
          (Z.shiftl (at_index b 1) 8))
          (Z.shiftl (at_index b 2) 16))
          (Z.shiftl (at_index b 3) 24))
          (Z.shiftl (at_index b 4) 32))
          (Z.shiftl (at_index b 5) 40))
          (Z.shiftl (at_index b 6) 48))
          (Z.shiftl (at_index b 7) 56)
    end.

(** ** Buffer and Message *)

(** Modelled from the spec: the declaration of [Buffer] is not in
    protocol.go; the code only uses its field [Data], a byte slice. *)
Record Buffer : Type := mkBuffer { Data : slice }.

(** Modelled from the spec: the [Message] interface is not declared in
    protocol.go; the code calls its two methods.  [WriteBuffer] works on
    the buffer it is handed and may return an error. *)
Record Message : Type := mkMessage {
  RecommendBufferSize : Z;
  WriteBuffer : Buffer -> exec (option error * Buffer)
}.

(** A message whose [WriteBuffer] appends the bytes [payload]. *)
Definition BytesMessage (hint : Z) (payload : list byte) : Message :=
  {| RecommendBufferSize := hint;
     WriteBuffer := fun buffer =>
       Ret (None, mkBuffer (append_slice (Data buffer) payload)) |}.

(** What it means for a message to append [payload]: whatever buffer it
    is given, it returns without error and the visible bytes grow by
    exactly [payload]. *)
Definition appends (m : Message) (payload : list byte) : Prop :=
  forall buffer, exists buffer',
    WriteBuffer m buffer = Ret (None, buffer') /\
    elems (Data buffer') = elems (Data buffer) ++ payload.

(** ** Transports *)

(** An [io.Reader] over a finite stream.  Each entry of [chunks] is what
    one call can deliver at most; a call asking for less leaves the rest
    of the chunk in front.  Once the chunks are used up every call
    returns [closing].  [delivered] and [calls] log what the transport
    has handed out. *)
Record Reader : Type := mkReader {
  chunks : list (list byte);
  closing : error;
  delivered : list byte;
  calls : nat
}.

Definition remaining (r : Reader) : list byte := concat (chunks r).

(** One call of the transport's [Read] with a region of [k > 0] bytes:
    the bytes copied, the error, the chunks left. *)
Definition transport_Read (cs : list (list byte)) (final : error) (k : nat)
  : list byte * option error * list (list byte) :=
  match cs with
  | [] => ([], Some final, [])
  | c :: rest =>
      if (length c <=? k)%nat then (c, None, rest)
      else (take k c, None, drop k c :: rest)
  end.

(** The loop of [io.ReadAtLeast]: call the reader until [need] bytes have
    arrived or it returns an error.  A call that does not fill the request
    uses up a whole chunk, so the recursion follows the chunks. *)
Fixpoint read_loop (cs : list (list byte)) (final : error) (need : nat)
  : list byte * option error * list (list byte) * nat :=
  match need with
  | O => ([], None, cs, O)
  | S _ =>
      match cs with
      | [] => ([], Some final, [], 1%nat)
      | c :: rest =>
          if (length c <=? need)%nat then
            let '(got, err, cs', k) := read_loop rest final (need - length c) in
            (c ++ got, err, cs', S k)
          else (take need c, None, drop need c :: rest, 1%nat)
      end
  end.

(** [io.ReadFull(reader, buf)] with [len(buf) = want]: the bytes that
    arrived, the error, and the reader afterwards. *)
Definition ReadFull (r : Reader) (want : nat)
  : list byte * option error * Reader :=
  let '(got, err, cs', k) := read_loop (chunks r) (closing r) want in
  let r' := {| chunks := cs'; closing := closing r;
               delivered := delivered r ++ got; calls := (calls r + k)%nat |} in
  let err' :=
    match err with
    | None => None
    | Some e =>
        if (0 <? length got)%nat && error_eqb e EOF
        then Some ErrUnexpectedEOF else Some e
    end in
  (got, err', r').

(** An [io.Writer] that takes a whole region or, when [broken], takes
    nothing and returns its error. *)
Record Writer : Type := mkWriter {
  sink : list byte;
  wcalls : nat;
  broken : option error
}.

Definition writer_Write (w : Writer) (data : list byte) : option error * Writer :=
  match broken w with
  | Some e => (Some e, {| sink := sink w; wcalls := S (wcalls w); broken := broken w |})
  | None => (None, {| sink := sink w ++ data; wcalls := S (wcalls w); broken := None |})
  end.

(** ** SimpleProtocol *)

Record SimpleProtocol : Type := mkProtocol {
  n : Z;
  bo : ByteOrder;
  head : slice;
  encodeHead : list byte -> exec (list byte);
  decodeHead : list byte -> exec Z;
  MaxPacketSize : Z
}.

(** The assignment [p.MaxPacketSize = m]. *)
Definition SetMaxPacketSize (p : SimpleProtocol) (m : Z) : SimpleProtocol :=
  {| n := n p; bo := bo p; head := head p; encodeHead := encodeHead p;
     decodeHead := decodeHead p; MaxPacketSize := m |}.

(** The scratch header region after a read into it. *)
Definition set_head (p : SimpleProtocol) (h : slice) : SimpleProtocol :=
  {| n := n p; bo := bo p; head := h; encodeHead := encodeHead p;
     decodeHead := decodeHead p; MaxPacketSize := MaxPacketSize p |}.

(** [PacketN(n, byteOrder)].  The closures take the region they work on:
    [encodeHead] the visible bytes of the buffer, [decodeHead] the bytes
    of [protocol.head] at the time of the call. *)
Definition PacketN (n : Z) (byteOrder : ByteOrder) : exec SimpleProtocol :=
  scratch <- make_slice n n ;;
  let protocol enc dec :=
    Ret {| n := n; bo := byteOrder; head := scratch;
           encodeHead := enc; decodeHead := dec; MaxPacketSize := 0 |} in
  if n =? 1 then
    protocol
      (fun buffer =>
         if (length buffer <? 1)%nat then Panic IndexOutOfRange
         else Ret (<[0%nat := byte_of_Z (Z.of_nat (length buffer) - n)]> buffer))
      (fun head =>
         if (length head <? 1)%nat then Panic IndexOutOfRange
         else Ret (to_int (at_index head 0)))
  else if n =? 2 then
    protocol
      (fun buffer =>
         PutUint16 byteOrder buffer (to_uint16 (Z.of_nat (length buffer) - n)))
      (fun head => v <- Uint16 byteOrder head ;; Ret (to_int v))
  else if n =? 4 then
    protocol
      (fun buffer =>
         PutUint32 byteOrder buffer (to_uint32 (Z.of_nat (length buffer) - n)))
      (fun head => v <- Uint32 byteOrder head ;; Ret (to_int v))
  else if n =? 8 then
    protocol
      (fun buffer =>
         PutUint64 byteOrder buffer (to_uint64 (Z.of_nat (length buffer) - n)))
      (fun head => v <- Uint64 byteOrder head ;; Ret (to_int v))
  else Panic UnsupportedPacketHeadSize.

(** The first statement of [Packet]: bring the buffer to length [p.n]. *)
Definition Packet_reserve (p : SimpleProtocol) (buffer : Buffer) (size : Z)
  : exec Buffer :=
  if slice_cap (Data buffer) <? size then
    data <- make_slice (n p) size ;; Ret (mkBuffer data)
  else
    data <- reslice (Data buffer) (n p) ;; Ret (mkBuffer data).

Definition Packet (p : SimpleProtocol) (buffer : Buffer) (message : Message)
  : exec (option error * Buffer) :=
  let size := RecommendBufferSize message in
  buffer' <- Packet_reserve p buffer size ;;
  WriteBuffer message buffer'.

Definition Write (p : SimpleProtocol) (writer : Writer) (buffer : Buffer)
  : exec (option error * Writer * Buffer) :=
  if (MaxPacketSize p >? 0) && (slice_len (Data buffer) >? MaxPacketSize p)
  then Ret (Some PacketTooLargeError, writer, buffer)
  else
    stamped <- encodeHead p (elems (Data buffer)) ;;
    let buffer' := mkBuffer (mkSlice stamped (spare (Data buffer))) in
    let '(err, writer') := writer_Write writer stamped in
    Ret (err, writer', buffer').

Definition Read (p : SimpleProtocol) (reader : Reader) (buffer : Buffer)
  : exec (option error * SimpleProtocol * Reader * Buffer) :=
  let '(got, err, reader1) := ReadFull reader (length (elems (head p))) in
  let p1 := set_head p (fill (head p) got) in
  match err with
  | Some e => Ret (Some e, p1, reader1, buffer)
  | None =>
      size <- decodeHead p1 (elems (head p1)) ;;
      if (MaxPacketSize p1 >? 0) && (size >? MaxPacketSize p1)
      then Ret (Some PacketTooLargeError, p1, reader1, buffer)
      else
        data <- (if slice_cap (Data buffer) <? size
                 then make_slice size size
                 else reslice (Data buffer) size) ;;
        if size =? 0 then Ret (None, p1, reader1, mkBuffer data)
        else
          let '(got2, err2, reader2) := ReadFull reader1 (length (elems data)) in
          Ret (err2, p1, reader2, mkBuffer (fill data got2))
  end.

(** The sending side of a session: [Packet], and when it returned no
    error, [Write] of the buffer it filled. *)
Definition send (p : SimpleProtocol) (writer : Writer) (buffer : Buffer)
    (message : Message) : exec (option error * Writer * Buffer) :=
  r <- Packet p buffer message ;;
  match fst r with
  | Some e => Ret (Some e, writer, snd r)
  | None => Write p writer (snd r)
  end.


(** ** Concrete runs *)

Definition bytes_of (l : list Z) : list byte := map byte_of_Z l.

Definition stream_reader (cs : list (list byte)) : Reader :=
  mkReader cs EOF [] 0.

Definition fresh_writer : Writer := mkWriter [] 0 None.
Definition fresh_buffer : Buffer := mkBuffer nil_slice.

Definition hello : list byte := bytes_of [104; 101; 108; 108; 111].

Definition observe {A B C D} (r : exec (A * B * C * D)) : exec (A * C * D) :=
  x <- r ;; Ret (fst (fst (fst x)), snd (fst x), snd x).

(** ** Reading a header as a number

    The unsigned value of a byte sequence, least significant byte first,
    and in a given byte order.  The decoders of [encoding/binary] compute
    it for their width ([Uint16_value] and the like below). *)

Fixpoint le_value (bs : list byte) : Z :=
  match bs with
  | [] => 0
  | b :: rest => Z_of_byte b + 256 * le_value rest
  end.

Definition uint_value (order : ByteOrder) (bs : list byte) : Z :=
  match order with
  | LittleEndian => le_value bs
  | BigEndian => le_value (rev bs)
  end.

(** The bytes [encoding/binary] writes for [v] in [k] bytes: byte [i],
    counted from the least significant end, is [byte(v >> 8i)]. *)
Definition digits (v : Z) (k : nat) : list byte :=
  map (fun i => byte_of_Z (Z.shiftr v (8 * Z.of_nat i))) (seq 0 k).

Definition header_bytes (order : ByteOrder) (v : Z) (k : nat) : list byte :=
  match order with
  | LittleEndian => digits v k
  | BigEndian => rev (digits v k)
  end.

Definition supported (width : Z) : Prop :=
  width = 1 \/ width = 2 \/ width = 4 \/ width = 8.

(** A protocol as [PacketN] makes it, after any assignment to
    [MaxPacketSize] and any number of reads into the scratch header. *)
Definition built (width : Z) (order : ByteOrder) (p : SimpleProtocol) : Prop :=
  exists p0 m h,
    PacketN width order = Ret p0 /\
    length (elems h) = Z.to_nat width /\
    p = set_head (SetMaxPacketSize p0 m) h.

(** ** Streams and frames *)

(** Two readers that stand at the same point of the same stream: the
    same bytes to come, the same closing error, the same bytes handed
    out so far.  They may cut the stream into different chunks. *)
Definition same_stream (r1 r2 : Reader) : Prop :=
  remaining r1 = remaining r2 /\
  closing r1 = closing r2 /\
  delivered r1 = delivered r2.

(** A packet on the wire: the header [Write] stamps for a payload,
    followed by the payload. *)
Definition frame (order : ByteOrder) (width : Z) (payload : list byte) : list byte :=
  header_bytes order (Z.of_nat (length payload)) (Z.to_nat width) ++ payload.

(** A run of successful calls of [Read] on one reader and one buffer,
    each call taking the protocol, reader and buffer the previous one
    left, with the payloads the buffer held after each call. *)
Inductive Reads : SimpleProtocol -> Reader -> Buffer -> list (list byte) ->
                  SimpleProtocol -> Reader -> Buffer -> Prop :=
  | Reads_nil p r b : Reads p r b [] p r b
  | Reads_cons p r b p1 r1 b1 payloads p2 r2 b2 :
      Read p r b = Ret (None, p1, r1, b1) ->
      Reads p1 r1 b1 payloads p2 r2 b2 ->
      Reads p r b (elems (Data b1) :: payloads) p2 r2 b2.

(** The size guard of [Read] lets [size] through. *)
Definition within_max (p : SimpleProtocol) (size : Z) : Prop :=
  MaxPacketSize p <= 0 \/ size <= MaxPacketSize p.

(** * Properties *)

(** ** Bytes and fixed-width integers *)

Lemma Z_of_byte_range (b : byte) : 0 <= Z_of_byte b < 256.
Proof.
  unfold Z_of_byte. pose proof (Byte.to_N_bounded b). lia.
Qed.

Lemma Z_of_byte_of_Z (z : Z) : Z_of_byte (byte_of_Z z) = z mod 256.
Proof.
  unfold Z_of_byte, byte_of_Z.
  pose proof (Z.mod_pos_bound z 256 ltac:(lia)) as Hr.
  destruct (Byte.of_N (Z.to_N (z mod 256))) as [b|] eqn:E.
  - apply Byte.to_of_N in E. rewrite E. lia.
  - apply Byte.of_N_None_iff in E. lia.
Qed.

Lemma byte_of_Z_of_byte (b : byte) : byte_of_Z (Z_of_byte b) = b.
Proof.
  unfold byte_of_Z. pose proof (Z_of_byte_range b) as Hr.
  rewrite Z.mod_small by lia. unfold Z_of_byte.
  rewrite N2Z.id, Byte.of_to_N. reflexivity.
Qed.

Lemma lor_shiftl_add (x y k : Z) :
  0 <= k -> 0 <= x < 2 ^ k -> Z.lor x (Z.shiftl y k) = x + y * 2 ^ k.
Proof.
  intros Hk Hx.
  rewrite <- Z.lxor_lor, <- Z.add_nocarry_lxor, Z.shiftl_mul_pow2; auto.
  all: apply Z.bits_inj'; intros i Hi; rewrite Z.land_spec, Z.bits_0.
  all: destruct (Z.ltb_spec i k) as [Hlt|Hge].
  all: try (rewrite (Z.shiftl_spec_low y k i) by lia; apply andb_false_r).
  all: replace (Z.testbit x i) with false; [reflexivity|].
  all: symmetry; destruct (Z.eq_dec x 0) as [->|Hne]; [apply Z.bits_0|].
  all: apply Z.bits_above_log2; [lia|].
  all: apply Z.log2_lt_pow2; [lia|].
  all: apply Z.lt_le_trans with (2 ^ k); [lia|].
  all: apply Z.pow_le_mono_r; lia.
Qed.

Lemma byte_of_Z_mod (z : Z) : byte_of_Z (z mod 256) = byte_of_Z z.
Proof.
  unfold byte_of_Z. rewrite Z.mod_mod by lia. reflexivity.
Qed.

Lemma to_int_small (z : Z) : 0 <= z <= max_int -> to_int z = z.
Proof.
  unfold to_int, max_int, int_size. intros Hz.
  rewrite Z.mod_small; lia.
Qed.

Lemma le_value_range (bs : list byte) :
  0 <= le_value bs < 2 ^ (8 * Z.of_nat (length bs)).
Proof.
  induction bs as [|b bs IH]; simpl length; simpl le_value.
  - simpl. lia.
  - pose proof (Z_of_byte_range b) as Hb.
    replace (8 * Z.of_nat (S (length bs))) with (8 + 8 * Z.of_nat (length bs)) by lia.
    rewrite Z.pow_add_r by lia. change (2 ^ 8) with 256. lia.
Qed.

Lemma uint_value_range (order : ByteOrder) (bs : list byte) :
  0 <= uint_value order bs < 2 ^ (8 * Z.of_nat (length bs)).
Proof.
  destruct order; simpl.
  - rewrite <- (length_rev bs). apply le_value_range.
  - apply le_value_range.
Qed.

Lemma le_value_digits_from (k s : nat) (v : Z) :
  le_value (map (fun i => byte_of_Z (Z.shiftr v (8 * Z.of_nat i))) (seq s k))
  = Z.shiftr v (8 * Z.of_nat s) mod 2 ^ (8 * Z.of_nat k).
Proof.
  revert s. induction k as [|k IH]; intros s.
  - simpl. rewrite Z.mod_1_r. reflexivity.
  - cbn [seq map le_value]. rewrite IH, Z_of_byte_of_Z.
    replace (8 * Z.of_nat (S s)) with (8 * Z.of_nat s + 8) by lia.
    rewrite <- Z.shiftr_shiftr by lia.
    set (x := Z.shiftr v (8 * Z.of_nat s)).
    rewrite (Z.shiftr_div_pow2 x 8) by lia.
    replace (8 * Z.of_nat (S k)) with (8 + 8 * Z.of_nat k) by lia.
    rewrite Z.pow_add_r by lia. change (2 ^ 8) with 256.
    rewrite Z.rem_mul_r by lia. reflexivity.
Qed.

Lemma length_header_bytes (order : ByteOrder) (v : Z) (k : nat) :
  length (header_bytes order v k) = k.
Proof.
  unfold header_bytes, digits.
  destruct order; rewrite ?length_rev, length_map, length_seq; reflexivity.
Qed.

Lemma uint_value_header_bytes (order : ByteOrder) (v : Z) (k : nat) :
  uint_value order (header_bytes order v k) = v mod 2 ^ (8 * Z.of_nat k).
Proof.
  unfold uint_value, header_bytes, digits.
  destruct order; rewrite ?rev_involutive, le_value_digits_from; reflexivity.
Qed.

(** The decoders read the unsigned value of their bytes. *)

Ltac byte_ranges :=
  repeat match goal with
  | b : byte |- _ =>
      lazymatch goal with
      | _ : 0 <= Z_of_byte b < 256 |- _ => fail
      | _ => pose proof (Z_of_byte_range b)
      end
  end.

Ltac lor_to_sum :=
  byte_ranges;
  repeat match goal with
  | |- context [Z.lor ?x (Z.shiftl ?y ?k)] =>
      lazymatch x with
      | context [Z.lor] => fail
      | _ => rewrite (lor_shiftl_add x y k) by lia
      end
  end.

Ltac explode l H :=
  repeat (destruct l as [|? l]; simpl in H; try lia; try discriminate H).

Lemma Uint16_value (order : ByteOrder) (hdr : list byte) :
  length hdr = 2%nat -> Uint16 order hdr = Ret (uint_value order hdr).
Proof.
  intros H. explode hdr H.
  destruct order; cbn -[Z.mul Z.add Z.shiftl Z.lor]; unfold at_index; cbn [lookup_total list_lookup_total];
    f_equal; lor_to_sum; lia.
Qed.


Lemma Uint32_value (order : ByteOrder) (hdr : list byte) :
  length hdr = 4%nat -> Uint32 order hdr = Ret (uint_value order hdr).
Proof.
  intros H. explode hdr H.
  destruct order; cbn -[Z.mul Z.add Z.shiftl Z.lor]; unfold at_index;
    cbn [lookup_total list_lookup_total]; f_equal; lor_to_sum; lia.
Qed.

Lemma Uint64_value (order : ByteOrder) (hdr : list byte) :
  length hdr = 8%nat -> Uint64 order hdr = Ret (uint_value order hdr).
Proof.
  intros H. explode hdr H.
  destruct order; cbn -[Z.mul Z.add Z.shiftl Z.lor]; unfold at_index;
    cbn [lookup_total list_lookup_total]; f_equal; lor_to_sum; lia.
Qed.

(** The encoders overwrite the first bytes and keep the rest. *)

Ltac peel b H := destruct b as [|? b]; [simpl in H; lia|].

Lemma PutUint16_bytes (order : ByteOrder) (b : list byte) (v : Z) :
  (2 <= length b)%nat ->
  PutUint16 order b v = Ret (header_bytes order v 2 ++ drop 2 b).
Proof.
  intros H. do 2 peel b H. destruct order; reflexivity.
Qed.

Lemma PutUint32_bytes (order : ByteOrder) (b : list byte) (v : Z) :
  (4 <= length b)%nat ->
  PutUint32 order b v = Ret (header_bytes order v 4 ++ drop 4 b).
Proof.
  intros H. do 4 peel b H. destruct order; reflexivity.
Qed.

Lemma PutUint64_bytes (order : ByteOrder) (b : list byte) (v : Z) :
  (8 <= length b)%nat ->
  PutUint64 order b v = Ret (header_bytes order v 8 ++ drop 8 b).
Proof.
  intros H. do 8 peel b H. destruct order; reflexivity.
Qed.

(** ** Construction *)

Lemma make_slice_header (width : Z) :
  0 <= width ->
  make_slice width width = Ret (mkSlice (replicate (Z.to_nat width) x00) []).
Proof.
  intros H. unfold make_slice.
  destruct (Z.ltb_spec width 0); [lia|].
  rewrite Z.ltb_irrefl, Nat.sub_diag. reflexivity.
Qed.

Lemma PacketN_returns (width : Z) (order : ByteOrder) (p0 : SimpleProtocol) :
  PacketN width order = Ret p0 -> supported width.
Proof.
  unfold PacketN, supported. intros H.
  destruct (make_slice width width); [|discriminate]. cbn [bind] in H.
  destruct (Z.eqb_spec width 1); [tauto|].
  destruct (Z.eqb_spec width 2); [tauto|].
  destruct (Z.eqb_spec width 4); [tauto|].
  destruct (Z.eqb_spec width 8); [tauto|discriminate].
Qed.



(** Bring a hypothesis [PacketN w order = Ret p0], with [w] a numeral, to
    the record the matching case of the switch builds. *)
Ltac open_PacketN H :=
  unfold PacketN in H;
  rewrite make_slice_header in H by lia;
  cbv beta iota delta [bind] in H;
  repeat match type of H with
  | context [(?a =? ?b)%Z] =>
      let r := eval vm_compute in (a =? b)%Z in
      change (a =? b)%Z with r in H
  end;
  cbv beta iota in H;
  injection H as <-.

Lemma built_supported (width : Z) (order : ByteOrder) (p : SimpleProtocol) :
  built width order p -> supported width.
Proof.
  intros (p0 & m & h & HP & _). eapply PacketN_returns, HP.
Qed.

Lemma built_fresh (width : Z) (order : ByteOrder) (p0 : SimpleProtocol) :
  PacketN width order = Ret p0 -> built width order p0.
Proof.
  intros HP. exists p0, (MaxPacketSize p0), (head p0).
  split; [assumption|]. split; [|destruct p0; reflexivity].
  pose proof (PacketN_returns _ _ _ HP) as Hs.
  destruct Hs as [->|[->|[->| ->]]]; open_PacketN HP; reflexivity.
Qed.

Lemma built_SetMaxPacketSize (width : Z) (order : ByteOrder) (p : SimpleProtocol) (m : Z) :
  built width order p -> built width order (SetMaxPacketSize p m).
Proof.
  intros (p0 & m0 & h & HP & Hh & ->). exists p0, m, h. auto.
Qed.

Lemma built_set_head (width : Z) (order : ByteOrder) (p : SimpleProtocol) (h : slice) :
  built width order p -> length (elems h) = Z.to_nat width ->
  built width order (set_head p h).
Proof.
  intros (p0 & m0 & h0 & HP & Hh & ->) Hlen. exists p0, m0, h. auto.
Qed.


Lemma built_head_length (width : Z) (order : ByteOrder) (p : SimpleProtocol) :
  built width order p -> length (elems (head p)) = Z.to_nat width.
Proof.
  intros (p0 & m & h & HP & Hh & ->). exact Hh.
Qed.

Lemma built_MaxPacketSize (width : Z) (order : ByteOrder) (p0 : SimpleProtocol) :
  PacketN width order = Ret p0 -> MaxPacketSize p0 = 0.
Proof.
  intros HP. pose proof (PacketN_returns _ _ _ HP) as Hs.
  destruct Hs as [->|[->|[->| ->]]]; open_PacketN HP; reflexivity.
Qed.

(** ** The header closures *)

Lemma built_encodeHead (width : Z) (order : ByteOrder) (p : SimpleProtocol)
    (buf : list byte) :
  built width order p -> (Z.to_nat width <= length buf)%nat ->
  encodeHead p buf =
    Ret (header_bytes order ((Z.of_nat (length buf) - width) mod 2 ^ (8 * width))
                      (Z.to_nat width)
         ++ drop (Z.to_nat width) buf).
Proof.
  intros (p0 & m & h & HP & Hh & ->) Hlen.
  pose proof (PacketN_returns _ _ _ HP) as Hs.
  destruct Hs as [->|[->|[->| ->]]]; open_PacketN HP;
    cbn [encodeHead set_head SetMaxPacketSize].
  - destruct buf as [|b buf]; [simpl in Hlen; lia|].
    cbn -[Z.of_nat Z.sub byte_of_Z Z.modulo Z.pow Z.mul].
    change (Z.to_nat 1) with 1%nat. change (2 ^ (8 * 1)) with 256.
    destruct order; unfold header_bytes, digits; cbn [seq map rev app drop];
      change (8 * Z.of_nat 0) with 0;
      rewrite Z.shiftr_0_r, byte_of_Z_mod; reflexivity.
  - apply PutUint16_bytes. exact Hlen.
  - apply PutUint32_bytes. exact Hlen.
  - apply PutUint64_bytes. exact Hlen.
Qed.

Lemma built_encodeHead_short (width : Z) (order : ByteOrder) (p : SimpleProtocol)
    (buf : list byte) :
  built width order p -> (length buf < Z.to_nat width)%nat ->
  encodeHead p buf = Panic IndexOutOfRange.
Proof.
  intros (p0 & m & h & HP & Hh & ->) Hlen.
  pose proof (PacketN_returns _ _ _ HP) as Hs.
  destruct Hs as [->|[->|[->| ->]]]; open_PacketN HP;
    cbn [encodeHead set_head SetMaxPacketSize];
    unfold PutUint16, PutUint32, PutUint64;
    match goal with
    | |- context [(length buf <? ?k)%nat] =>
        destruct (Nat.ltb_spec (length buf) k); [reflexivity|lia]
    end.
Qed.

Lemma built_decodeHead (width : Z) (order : ByteOrder) (p : SimpleProtocol)
    (hdr : list byte) :
  built width order p -> length hdr = Z.to_nat width ->
  decodeHead p hdr = Ret (to_int (uint_value order hdr)).
Proof.
  intros (p0 & m & h & HP & Hh & ->) Hlen.
  pose proof (PacketN_returns _ _ _ HP) as Hs.
  destruct Hs as [->|[->|[->| ->]]]; open_PacketN HP;
    cbn [decodeHead set_head SetMaxPacketSize].
  - explode hdr Hlen. unfold at_index.
    cbn [length Nat.ltb Nat.leb lookup_total list_lookup_total].
    destruct order; cbn [uint_value rev app le_value]; do 2 f_equal; lia.
  - rewrite Uint16_value by exact Hlen. reflexivity.
  - rewrite Uint32_value by exact Hlen. reflexivity.
  - rewrite Uint64_value by exact Hlen. reflexivity.
Qed.

(** ** Reading fully *)

Lemma read_loop_spec (cs : list (list byte)) (final : error) (need : nat) :
  forall got err cs' k,
  read_loop cs final need = (got, err, cs', k) ->
  concat cs = got ++ concat cs' /\
  ((err = None /\ length got = need) \/
   (err = Some final /\ (length got < need)%nat /\ cs' = [])).
Proof.
  revert need. induction cs as [|c rest IH]; intros need got err cs' k H.
  - destruct need; simpl in H; injection H as <- <- <- <-; simpl.
    + split; [reflexivity|]. left. auto.
    + split; [reflexivity|]. right. split; [reflexivity|]. split; [lia|reflexivity].
  - destruct need as [|m].
    + simpl in H. injection H as <- <- <- <-. split; [reflexivity|]. left. auto.
    + cbn [read_loop] in H.
      destruct (Nat.leb_spec (length c) (S m)) as [Hle|Hgt].
      * destruct (read_loop rest final (S m - length c))
          as [[[got1 err1] cs1] k1] eqn:E.
        injection H as <- <- <- <-.
        destruct (IH _ _ _ _ _ E) as [Hcat Hres].
        split; [simpl; rewrite Hcat, app_assoc; reflexivity|].
        rewrite length_app.
        destruct Hres as [[-> Hl]|(-> & Hl & ->)]; [left|right];
          repeat split; auto; lia.
      * injection H as <- <- <- <-.
        split.
        -- simpl. rewrite app_assoc, take_drop. reflexivity.
        -- left. split; [reflexivity|]. rewrite length_take. lia.
Qed.

(** [read_loop] is the loop [for n < min && err == nil] around single
    calls of the transport. *)
Lemma read_loop_step (cs : list (list byte)) (final : error) (m : nat) :
  read_loop cs final (S m) =
    let '(got, err, cs1) := transport_Read cs final (S m) in
    match err with
    | Some e => (got, Some e, cs1, 1%nat)
    | None =>
        let '(got2, err2, cs2, k) := read_loop cs1 final (S m - length got) in
        (got ++ got2, err2, cs2, S k)
    end.
Proof.
  destruct cs as [|c rest]; [reflexivity|].
  cbn [read_loop transport_Read].
  destruct (Nat.leb_spec (length c) (S m)) as [Hle|Hgt]; [reflexivity|].
  rewrite length_take, Nat.min_l, Nat.sub_diag by lia.
  cbn [read_loop]. rewrite app_nil_r. reflexivity.
Qed.

Lemma ReadFull_spec (r : Reader) (want : nat) :
  forall got err r',
  ReadFull r want = (got, err, r') ->
  remaining r = got ++ remaining r' /\
  delivered r' = delivered r ++ got /\
  closing r' = closing r /\
  ((err = None /\ length got = want) \/
   (err <> None /\ (length got < want)%nat /\ remaining r' = [])).
Proof.
  intros got err r'. unfold ReadFull, remaining.
  destruct (read_loop (chunks r) (closing r) want) as [[[g e] cs'] k] eqn:E.
  intros H. injection H as <- <- <-. cbn [chunks delivered closing].
  destruct (read_loop_spec _ _ _ _ _ _ _ E) as [Hcat Hres].
  repeat split; auto.
  destruct Hres as [[-> Hl]|(-> & Hl & ->)]; [left; auto|right].
  split; [|auto].
  destruct ((0 <? length g)%nat && error_eqb (closing r) EOF); discriminate.
Qed.

(** With enough bytes in the stream the read is complete, however the
    transport cuts them up. *)
Lemma ReadFull_enough (r : Reader) (front rest : list byte) :
  remaining r = front ++ rest ->
  exists r',
    ReadFull r (length front) = (front, None, r') /\
    remaining r' = rest /\
    delivered r' = delivered r ++ front /\
    closing r' = closing r.
Proof.
  intros Hrem.
  destruct (ReadFull r (length front)) as [[got err] r'] eqn:E.
  destruct (ReadFull_spec _ _ _ _ _ E) as (Hcat & Hdel & Hcl & Hres).
  rewrite Hrem in Hcat.
  destruct Hres as [[-> Hl]|(_ & Hl & Hnil)].
  - apply app_inj_1 in Hcat as [-> ->]; [|symmetry; exact Hl].
    exists r'. auto.
  - rewrite Hnil, app_nil_r in Hcat.
    apply (f_equal length) in Hcat. rewrite length_app in Hcat. lia.
Qed.

(** ** The three operations, step by step *)



(** [Write]'s guard compares the whole buffer, header included. *)
Lemma Write_guard (p : SimpleProtocol) (writer : Writer) (buffer : Buffer) :
  MaxPacketSize p > 0 -> slice_len (Data buffer) > MaxPacketSize p ->
  Write p writer buffer = Ret (Some PacketTooLargeError, writer, buffer).
Proof.
  intros Hm Hl. unfold Write.
  destruct (Z.gtb_spec (MaxPacketSize p) 0); [|lia].
  destruct (Z.gtb_spec (slice_len (Data buffer)) (MaxPacketSize p)); [|lia].
  reflexivity.
Qed.

Lemma Write_stamps (width : Z) (order : ByteOrder) (p : SimpleProtocol)
    (writer : Writer) (buffer : Buffer) :
  built width order p ->
  (MaxPacketSize p <= 0 \/ slice_len (Data buffer) <= MaxPacketSize p) ->
  width <= slice_len (Data buffer) ->
  let stamped :=
    header_bytes order ((slice_len (Data buffer) - width) mod 2 ^ (8 * width))
                 (Z.to_nat width)
    ++ drop (Z.to_nat width) (elems (Data buffer)) in
  Write p writer buffer =
    Ret (fst (writer_Write writer stamped), snd (writer_Write writer stamped),
         mkBuffer (mkSlice stamped (spare (Data buffer)))).
Proof.
  intros Hb Hm Hl stamped. unfold Write.
  replace ((MaxPacketSize p >? 0) && (slice_len (Data buffer) >? MaxPacketSize p))
    with false.
  2:{ destruct (Z.gtb_spec (MaxPacketSize p) 0); [|reflexivity].
      destruct (Z.gtb_spec (slice_len (Data buffer)) (MaxPacketSize p));
        [lia|reflexivity]. }
  unfold slice_len in *.
  rewrite (built_encodeHead width order) by (auto; lia).
  cbn [bind]. fold stamped.
  destruct (writer_Write writer stamped); reflexivity.
Qed.

(** X4: [Write] returns [PacketTooLargeError] exactly when a maximum is
    set and the length of the whole buffer, header included, exceeds it. *)
Lemma Write_too_large_iff (width : Z) (order : ByteOrder) (p : SimpleProtocol)
    (writer : Writer) (buffer : Buffer) :
  built width order p ->
  width <= slice_len (Data buffer) ->
  broken writer <> Some PacketTooLargeError ->
  (exists w' b', Write p writer buffer = Ret (Some PacketTooLargeError, w', b')) <->
  (MaxPacketSize p > 0 /\ slice_len (Data buffer) > MaxPacketSize p).
Proof.
  intros Hb Hl Hw. split.
  - intros (w' & b' & HW).
    destruct (Z_le_gt_dec (MaxPacketSize p) 0) as [Hm|Hm];
      [|destruct (Z_le_gt_dec (slice_len (Data buffer)) (MaxPacketSize p)) as [Hs|Hs]];
      [| |split; assumption].
    all: rewrite (Write_stamps width order p writer buffer Hb) in HW by lia.
    all: unfold writer_Write in HW.
    all: destruct (broken writer) as [e|]; cbn [fst] in HW; congruence.
  - intros [Hm Hs]. eexists _, _. apply Write_guard; assumption.
Qed.

Lemma resize_ok (buffer : Buffer) (size : Z) :
  0 <= size ->
  exists data,
    (if slice_cap (Data buffer) <? size
     then make_slice size size else reslice (Data buffer) size) = Ret data /\
    length (elems data) = Z.to_nat size.
Proof.
  intros Hs.
  destruct (Z.ltb_spec (slice_cap (Data buffer)) size) as [Hlt|Hge].
  - rewrite make_slice_header by lia. eexists. split; [reflexivity|].
    cbn [elems]. apply length_replicate.
  - unfold reslice.
    destruct (Z.ltb_spec size 0); [lia|].
    destruct (Z.ltb_spec (slice_cap (Data buffer)) size); [lia|].
    eexists. split; [reflexivity|].
    unfold slice_cap, backing in *. cbn [elems].
    rewrite length_take, length_app. lia.
Qed.

Lemma resize_negative (buffer : Buffer) (size : Z) :
  size < 0 ->
  (if slice_cap (Data buffer) <? size
   then make_slice size size else reslice (Data buffer) size)
  = Panic SliceBoundsOutOfRange.
Proof.
  intros Hs. unfold slice_cap.
  destruct (Z.ltb_spec (Z.of_nat (length (elems (Data buffer)) +
                                  length (spare (Data buffer)))) size); [lia|].
  unfold reslice. destruct (Z.ltb_spec size 0); [reflexivity|lia].
Qed.

Lemma fill_whole (s : slice) (got : list byte) :
  length got = length (elems s) -> elems (fill s got) = got.
Proof.
  intros H. unfold fill. cbn [elems].
  rewrite drop_ge by lia. apply app_nil_r.
Qed.

(** What [Read] does once the header has arrived: the rest of its body,
    with the decoded size in place. *)
Lemma Read_after_header (width : Z) (order : ByteOrder) (p : SimpleProtocol)
    (r : Reader) (b : Buffer) (hdr rest : list byte) :
  built width order p ->
  remaining r = hdr ++ rest ->
  length hdr = Z.to_nat width ->
  exists p1 r1,
    ReadFull r (Z.to_nat width) = (hdr, None, r1) /\
    remaining r1 = rest /\
    delivered r1 = delivered r ++ hdr /\
    closing r1 = closing r /\
    built width order p1 /\
    MaxPacketSize p1 = MaxPacketSize p /\
    elems (head p1) = hdr /\
    Read p r b =
      let size := to_int (uint_value order hdr) in
      if (MaxPacketSize p >? 0) && (size >? MaxPacketSize p)
      then Ret (Some PacketTooLargeError, p1, r1, b)
      else
        data <- (if slice_cap (Data b) <? size
                 then make_slice size size else reslice (Data b) size) ;;
        if size =? 0 then Ret (None, p1, r1, mkBuffer data)
        else
          let '(got2, err2, r2) := ReadFull r1 (length (elems data)) in
          Ret (err2, p1, r2, mkBuffer (fill data got2)).
Proof.
  intros Hb Hrem Hlen.
  destruct (ReadFull_enough r hdr rest Hrem) as (r1 & HR & Hrest & Hdel & Hcl).
  rewrite Hlen in HR.
  pose proof (built_head_length _ _ _ Hb) as Hh.
  assert (Hfill : elems (fill (head p) hdr) = hdr)
    by (apply fill_whole; congruence).
  exists (set_head p (fill (head p) hdr)), r1.
  repeat split; auto.
  - apply built_set_head; [assumption|]. rewrite Hfill. exact Hlen.
  - unfold Read. rewrite Hh, HR.
    cbn [head set_head decodeHead MaxPacketSize].
    rewrite Hfill.
    change (decodeHead (set_head p (fill (head p) hdr))) with (decodeHead p).
    rewrite (built_decodeHead width order) by assumption.
    reflexivity.
Qed.

Lemma Read_too_large (width : Z) (order : ByteOrder) (p : SimpleProtocol)
    (r : Reader) (b : Buffer) (hdr rest : list byte) :
  built width order p ->
  remaining r = hdr ++ rest ->
  length hdr = Z.to_nat width ->
  MaxPacketSize p > 0 ->
  to_int (uint_value order hdr) > MaxPacketSize p ->
  exists p' r',
    Read p r b = Ret (Some PacketTooLargeError, p', r', b) /\
    ReadFull r (Z.to_nat width) = (hdr, None, r') /\
    remaining r' = rest /\
    delivered r' = delivered r ++ hdr.
Proof.
  intros Hb Hrem Hlen Hm Hsize.
  destruct (Read_after_header width order p r b hdr rest Hb Hrem Hlen)
    as (p1 & r1 & HR & Hrest & Hdel & _ & _ & _ & _ & ->).
  exists p1, r1. cbv zeta.
  destruct (Z.gtb_spec (MaxPacketSize p) 0); [|lia].
  destruct (Z.gtb_spec (to_int (uint_value order hdr)) (MaxPacketSize p)); [|lia].
  auto.
Qed.

Lemma Read_packet (width : Z) (order : ByteOrder) (p : SimpleProtocol)
    (r : Reader) (b : Buffer) (hdr payload tail : list byte) :
  built width order p ->
  remaining r = hdr ++ payload ++ tail ->
  length hdr = Z.to_nat width ->
  to_int (uint_value order hdr) = Z.of_nat (length payload) ->
  MaxPacketSize p <= 0 \/ Z.of_nat (length payload) <= MaxPacketSize p ->
  exists p' r' b',
    Read p r b = Ret (None, p', r', b') /\
    elems (Data b') = payload /\
    remaining r' = tail /\
    delivered r' = delivered r ++ hdr ++ payload /\
    built width order p' /\
    MaxPacketSize p' = MaxPacketSize p /\
    (payload = [] -> ReadFull r (Z.to_nat width) = (hdr, None, r')).
Proof.
  intros Hb Hrem Hlen Hsize Hm.
  destruct (Read_after_header width order p r b hdr (payload ++ tail) Hb Hrem Hlen)
    as (p1 & r1 & HR & Hrest & Hdel & _ & Hb1 & Hm1 & _ & ->).
  cbv zeta. rewrite Hsize.
  replace ((MaxPacketSize p >? 0) && (Z.of_nat (length payload) >? MaxPacketSize p))
    with false.
  2:{ destruct (Z.gtb_spec (MaxPacketSize p) 0); [|reflexivity].
      destruct (Z.gtb_spec (Z.of_nat (length payload)) (MaxPacketSize p));
        [lia|reflexivity]. }
  destruct (resize_ok b (Z.of_nat (length payload)) ltac:(lia)) as (data & -> & Hd).
  rewrite Nat2Z.id in Hd. cbn [bind].
  destruct (Z.eqb_spec (Z.of_nat (length payload)) 0) as [Hz|Hnz].
  - assert (payload = []) as -> by (destruct payload; [reflexivity|simpl in Hz; lia]).
    exists p1, r1, (mkBuffer data). cbn [Data].
    repeat split; auto.
    + destruct (elems data); [reflexivity|discriminate Hd].
    + rewrite Hdel, app_nil_r. reflexivity.
  - destruct (ReadFull_enough r1 payload tail Hrest) as (r2 & HR2 & Hrest2 & Hdel2 & _).
    rewrite Hd, HR2.
    exists p1, r2, (mkBuffer (fill data payload)). cbn [Data].
    repeat split; auto.
    + apply fill_whole. congruence.
    + rewrite Hdel2, Hdel, app_assoc. reflexivity.
    + intros ->. simpl in Hnz. lia.
Qed.

(** C5: when the stream starts with a well-formed packet (a header that
    decodes to the length of the payload that follows it) and [Read]
    returns without error, the buffer's length is the decoded length and
    its visible bytes are exactly the payload that followed the header;
    the header bytes are not among them and the reader stands right after
    the packet.  Unless the size guard applies, [Read] does return without
    error on such a stream. *)
Theorem Read_leaves_payload (width : Z) (order : ByteOrder) (p : SimpleProtocol)
    (r : Reader) (b : Buffer) (hdr payload tail : list byte) (size : Z) :
  built width order p ->
  remaining r = hdr ++ payload ++ tail ->
  length hdr = Z.to_nat width ->
  decodeHead p hdr = Ret size ->
  size = Z.of_nat (length payload) ->
  (forall p' r' b',
     Read p r b = Ret (None, p', r', b') ->
     slice_len (Data b') = size /\
     elems (Data b') = payload /\
     remaining r' = tail /\
     delivered r' = delivered r ++ hdr ++ payload) /\
  (MaxPacketSize p <= 0 \/ size <= MaxPacketSize p ->
   exists p' r' b', Read p r b = Ret (None, p', r', b')).
Proof.
  intros Hb Hrem Hlen Hdec Hsize.
  rewrite (built_decodeHead width order) in Hdec by assumption.
  injection Hdec as Hdec. rewrite Hsize in Hdec.
  split.
  - intros p' r' b' HRead.
    destruct (Z_le_gt_dec (MaxPacketSize p) 0) as [Hm|Hm].
    + destruct (Read_packet width order p r b hdr payload tail Hb Hrem Hlen Hdec
                  (or_introl Hm))
        as (p2 & r2 & b2 & HR & He & Hr & Hd & _).
      rewrite HR in HRead. injection HRead as <- <- <-.
      unfold slice_len. rewrite He. auto.
    + destruct (Z_le_gt_dec (Z.of_nat (length payload)) (MaxPacketSize p)) as [Hs|Hs].
      * destruct (Read_packet width order p r b hdr payload tail Hb Hrem Hlen Hdec
                    (or_intror Hs))
          as (p2 & r2 & b2 & HR & He & Hr & Hd & _).
        rewrite HR in HRead. injection HRead as <- <- <-.
        unfold slice_len. rewrite He. auto.
      * destruct (Read_too_large width order p r b hdr (payload ++ tail) Hb Hrem Hlen
                    Hm ltac:(lia))
          as (p2 & r2 & HR & _).
        rewrite HR in HRead. discriminate HRead.
  - intros Hm. rewrite Hsize in Hm.
    destruct (Read_packet width order p r b hdr payload tail Hb Hrem Hlen Hdec Hm)
      as (p2 & r2 & b2 & HR & _).
    eauto.
Qed.



Lemma Read_leaves_payload_witness :
  exists p, PacketN 2 BigEndian = Ret p /\
  let r := stream_reader [bytes_of [0]; bytes_of [3; 65]; bytes_of [66; 67; 2]] in
  (forall p' r' b',
     Read p r fresh_buffer = Ret (None, p', r', b') ->
     slice_len (Data b') = 3 /\
     elems (Data b') = bytes_of [65; 66; 67] /\
     remaining r' = bytes_of [2] /\
     delivered r' = delivered r ++ bytes_of [0; 3] ++ bytes_of [65; 66; 67]) /\
  (MaxPacketSize p <= 0 \/ 3 <= MaxPacketSize p ->
   exists p' r' b', Read p r fresh_buffer = Ret (None, p', r', b')).
Proof.
  eexists. split; [reflexivity|].
  apply (Read_leaves_payload 2 BigEndian _ _ _ (bytes_of [0; 3])
           (bytes_of [65; 66; 67]) (bytes_of [2]) 3).
  - apply built_fresh. reflexivity.
  - reflexivity.
  - reflexivity.
  - vm_compute. reflexivity.
  - reflexivity.
Defined.

(** C9: a [Read] that returns before resizing the buffer leaves the
    caller's buffer as it was.  This is so when reading the header bytes
    ends in an error (a transport error, or the end of the stream), and
    when the size guard returns [PacketTooLargeError]. *)
Theorem Read_early_error_keeps_buffer (p : SimpleProtocol) (r : Reader) (b : Buffer) :
  (forall got e r1,
     ReadFull r (length (elems (head p))) = (got, Some e, r1) ->
     exists p', Read p r b = Ret (Some e, p', r1, b)) /\
  (forall hdr r1 size,
     ReadFull r (length (elems (head p))) = (hdr, None, r1) ->
     decodeHead p hdr = Ret size ->
     MaxPacketSize p > 0 ->
     size > MaxPacketSize p ->
     exists p', Read p r b = Ret (Some PacketTooLargeError, p', r1, b)).
Proof.
  split.
  - intros got e r1 HR. unfold Read. rewrite HR. eauto.
  - intros hdr r1 size HR Hdec Hm Hsize. unfold Read. rewrite HR.
    destruct (ReadFull_spec _ _ _ _ _ HR) as (_ & _ & _ & [[_ Hl]|[Hne _]]);
      [|congruence].
    cbn [head set_head decodeHead MaxPacketSize].
    rewrite fill_whole by exact Hl. rewrite Hdec. cbn [bind].
    destruct (Z.gtb_spec (MaxPacketSize p) 0); [|lia].
    destruct (Z.gtb_spec size (MaxPacketSize p)); [|lia].
    eauto.
Qed.

Lemma Read_early_error_keeps_buffer_witness :
  exists p0, PacketN 4 LittleEndian = Ret p0 /\
  let p := SetMaxPacketSize p0 16 in
  let b := mkBuffer (mkSlice (bytes_of [1; 2; 3]) (bytes_of [4])) in
  (exists p', Read p (mkReader [bytes_of [7; 0]] (TransportError 3) [] 0) b
              = Ret (Some (TransportError 3), p',
                     mkReader [] (TransportError 3) (bytes_of [7; 0]) 2, b)) /\
  (exists p', Read p (stream_reader [bytes_of [17; 0; 0; 0; 9]]) b
              = Ret (Some PacketTooLargeError, p',
                     mkReader [bytes_of [9]] EOF (bytes_of [17; 0; 0; 0]) 1, b)).
Proof.
  eexists. split; [reflexivity|]. cbv zeta. split.
  - refine (proj1 (Read_early_error_keeps_buffer _ _ _) (bytes_of [7; 0]) _ _ _).
    vm_compute. reflexivity.
  - refine (proj2 (Read_early_error_keeps_buffer _ _ _) (bytes_of [17; 0; 0; 0]) _ 17 _ _ _ _).
    + vm_compute. reflexivity.
    + vm_compute. reflexivity.
    + simpl. lia.
    + simpl. lia.
Defined.

(** C10: with [MaxPacketSize] 0 there is no check that the length fits
    the header.  For a buffer whose payload length [len - n] is at least
    [2^(8n)], [Write] to a working writer succeeds, sends the whole
    buffer, and the header it stamped reads as [(len - n) mod 2^(8n)],
    which is less than the payload length. *)
Theorem Write_wraps_header (width : Z) (order : ByteOrder) (p : SimpleProtocol)
    (w : Writer) (b : Buffer) :
  built width order p ->
  MaxPacketSize p = 0 ->
  broken w = None ->
  slice_len (Data b) - width >= 2 ^ (8 * width) ->
  exists w' b',
    Write p w b = Ret (None, w', b') /\
    sink w' = sink w ++ elems (Data b') /\
    slice_len (Data b') = slice_len (Data b) /\
    drop (Z.to_nat width) (elems (Data b')) = drop (Z.to_nat width) (elems (Data b)) /\
    uint_value order (take (Z.to_nat width) (elems (Data b')))
      = (slice_len (Data b) - width) mod 2 ^ (8 * width) /\
    uint_value order (take (Z.to_nat width) (elems (Data b')))
      < slice_len (Data b) - width.
Proof.
  intros Hb Hm Hw Hbig.
  assert (Hpos : 0 < width)
    by (destruct (built_supported _ _ _ Hb) as [->|[->|[->| ->]]]; lia).
  assert (Hpow : 0 < 2 ^ (8 * width)) by (apply Z.pow_pos_nonneg; lia).
  rewrite (Write_stamps width order p w b Hb) by lia.
  set (v := (slice_len (Data b) - width) mod 2 ^ (8 * width)).
  set (hdr := header_bytes order v (Z.to_nat width)).
  assert (Hh : length hdr = Z.to_nat width) by apply length_header_bytes.
  unfold writer_Write. rewrite Hw. cbn [fst snd].
  eexists _, _. split; [reflexivity|]. cbn [sink Data elems].
  assert (Hv : uint_value order hdr = v).
  { unfold hdr. rewrite uint_value_header_bytes, Z2Nat.id by lia.
    unfold v. apply Z.mod_mod. lia. }
  split; [reflexivity|].
  split.
  { unfold slice_len in *. cbn [elems]. rewrite length_app, Hh, length_drop. lia. }
  rewrite take_app_length', drop_app_length' by (symmetry; exact Hh).
  split; [reflexivity|]. split; [exact Hv|].
  rewrite Hv. pose proof (Z.mod_pos_bound (slice_len (Data b) - width)
                            (2 ^ (8 * width)) Hpow). fold v in H. lia.
Qed.

Lemma Write_wraps_header_witness :
  exists p, PacketN 1 BigEndian = Ret p /\
  let b := mkBuffer (mkSlice (replicate 258 x01) []) in
  exists w' b',
    Write p fresh_writer b = Ret (None, w', b') /\
    sink w' = sink fresh_writer ++ elems (Data b') /\
    slice_len (Data b') = slice_len (Data b) /\
    drop (Z.to_nat 1) (elems (Data b')) = drop (Z.to_nat 1) (elems (Data b)) /\
    uint_value BigEndian (take (Z.to_nat 1) (elems (Data b')))
      = (slice_len (Data b) - 1) mod 2 ^ (8 * 1) /\
    uint_value BigEndian (take (Z.to_nat 1) (elems (Data b')))
      < slice_len (Data b) - 1.
Proof.
  eexists. split; [reflexivity|].
  apply (Write_wraps_header 1 BigEndian).
  - apply built_fresh. reflexivity.
  - reflexivity.
  - reflexivity.
  - vm_compute. discriminate.
Defined.

(** ** Sending and receiving *)

Lemma BytesMessage_appends (hint : Z) (payload : list byte) :
  appends (BytesMessage hint payload) payload.
Proof.
  intros buffer. eexists. split; [reflexivity|].
  cbn [Data]. unfold append_slice.
  destruct (length payload <=? length (spare (Data buffer)))%nat; reflexivity.
Qed.





(** X11: a header that decodes to 0: success, an empty buffer, and the
    reader as the read of the header left it, whatever the maximum. *)
Lemma Read_empty_packet (width : Z) (order : ByteOrder) (p : SimpleProtocol)
    (r : Reader) (b : Buffer) (hdr rest : list byte) :
  built width order p ->
  remaining r = hdr ++ rest ->
  length hdr = Z.to_nat width ->
  decodeHead p hdr = Ret 0 ->
  exists p' r' b',
    Read p r b = Ret (None, p', r', b') /\
    slice_len (Data b') = 0 /\
    ReadFull r (Z.to_nat width) = (hdr, None, r') /\
    remaining r' = rest.
Proof.
  intros Hb Hrem Hlen Hdec.
  rewrite (built_decodeHead width order) in Hdec by assumption.
  injection Hdec as Hdec.
  assert (Hm : MaxPacketSize p <= 0 \/ Z.of_nat (length (@nil byte)) <= MaxPacketSize p)
    by (simpl; lia).
  destruct (Read_packet width order p r b hdr [] rest Hb Hrem Hlen Hdec Hm)
    as (p' & r' & b' & HR & He & Hr & _ & _ & _ & HF).
  exists p', r', b'. unfold slice_len. rewrite He. auto.
Qed.

(** For headers of 1, 2 and 4 bytes the decoded size is the unsigned
    value of the header, so it is not negative. *)
Lemma decoded_size_narrow (width : Z) (order : ByteOrder) (p : SimpleProtocol)
    (hdr : list byte) :
  built width order p -> width <> 8 ->
  length hdr = Z.to_nat width ->
  exists size,
    decodeHead p hdr = Ret size /\
    size = uint_value order hdr /\ 0 <= size < 2 ^ (8 * width).
Proof.
  intros Hb Hw Hlen.
  rewrite (built_decodeHead width order) by assumption.
  pose proof (uint_value_range order hdr) as Hr. rewrite Hlen in Hr.
  pose proof (built_supported _ _ _ Hb) as Hs.
  assert (Hbound : 0 <= width /\ 2 ^ (8 * width) <= max_int).
  { destruct Hs as [->|[->|[->| ->]]]; try congruence;
      (split; [lia|vm_compute; discriminate]). }
  rewrite Z2Nat.id in Hr by lia.
  eexists. split; [reflexivity|].
  rewrite to_int_small by lia. split; [reflexivity|lia].
Qed.

(** A header whose value does not fit [int] decodes to a negative size,
    and [Read] then panics when it reslices the buffer, whatever the
    maximum is. *)
Lemma Read_negative_size_faults (width : Z) (order : ByteOrder) (p : SimpleProtocol)
    (r : Reader) (b : Buffer) (hdr rest : list byte) :
  built width order p ->
  remaining r = hdr ++ rest ->
  length hdr = Z.to_nat width ->
  max_int < uint_value order hdr ->
  decodeHead p hdr = Ret (uint_value order hdr - 2 ^ int_size) /\
  Read p r b = Panic SliceBoundsOutOfRange.
Proof.
  intros Hb Hrem Hlen Hbig.
  pose proof (uint_value_range order hdr) as Hr. rewrite Hlen in Hr.
  assert (Hw : width = 8).
  { destruct (Z.eq_dec width 8) as [|Hne]; [assumption|exfalso].
    assert (0 <= width /\ 2 ^ (8 * width) <= max_int) as [H0 Hle].
    { destruct (built_supported _ _ _ Hb) as [->|[->|[->| ->]]]; try congruence;
        (split; [lia|vm_compute; discriminate]). }
    rewrite Z2Nat.id in Hr by lia. lia. }
  subst width. change (2 ^ (8 * Z.of_nat (Z.to_nat 8))) with (2 ^ 64) in Hr.
  assert (Hneg : to_int (uint_value order hdr) = uint_value order hdr - 2 ^ int_size).
  { revert Hbig Hr. unfold to_int, max_int, int_size.
    generalize (uint_value order hdr). intros u Hbig Hr.
    change (2 ^ (64 - 1)) with 9223372036854775808 in *.
    change (2 ^ 64) with 18446744073709551616 in *.
    replace (u + 9223372036854775808)
      with (u - 9223372036854775808 + 1 * 18446744073709551616) by lia.
    rewrite Z.mod_add, Z.mod_small by lia. lia. }
  split.
  - rewrite (built_decodeHead 8 order) by assumption. rewrite Hneg. reflexivity.
  - destruct (Read_after_header 8 order p r b hdr rest Hb Hrem Hlen)
      as (p1 & r1 & _ & _ & _ & _ & _ & _ & _ & ->).
    cbv zeta. rewrite Hneg.
    assert (Hlt : uint_value order hdr - 2 ^ int_size < 0)
      by (unfold int_size; change (2 ^ 64) with 18446744073709551616 in *; lia).
    replace ((MaxPacketSize p >? 0) &&
             (uint_value order hdr - 2 ^ int_size >? MaxPacketSize p)) with false.
    2:{ destruct (Z.gtb_spec (MaxPacketSize p) 0); [|reflexivity].
        destruct (Z.gtb_spec (uint_value order hdr - 2 ^ int_size) (MaxPacketSize p));
          [lia|reflexivity]. }
    rewrite resize_negative by exact Hlt. reflexivity.
Qed.

(** ** Where the code departs from the specification *)

(** C1: round trip at the maximum.  With [n = 2], big-endian,
    [MaxPacketSize = 4] and a payload of 4 bytes (within the header's
    range and within the maximum), [Packet] fills the buffer with the two
    reserved bytes and the payload, and [Write] returns
    [PacketTooLargeError] without writing: its guard compares the length
    of the whole buffer, 6, with the maximum.  Nothing is on the wire, so
    [Read] from it returns [EOF] and the payload is not recovered.  A wire
    that did carry this packet would be accepted by [Read]. *)
Theorem roundtrip_fails_at_maximum :
  let payload := bytes_of [1; 2; 3; 4] in
  let message := BytesMessage 6 payload in
  Z.of_nat (length payload) <= 2 ^ (8 * 2) - 1 /\
  Z.of_nat (length payload) <= 4 /\
  (p0 <- PacketN 2 BigEndian ;;
   send (SetMaxPacketSize p0 4) fresh_writer fresh_buffer message)
  = Ret (Some PacketTooLargeError, fresh_writer,
         mkBuffer (mkSlice (bytes_of [0; 0; 1; 2; 3; 4]) [])) /\
  (p0 <- PacketN 2 BigEndian ;;
   observe (Read (SetMaxPacketSize p0 4)
                 (stream_reader [sink fresh_writer]) fresh_buffer))
  = Ret (Some EOF, mkReader [] EOF [] 2, fresh_buffer) /\
  (p0 <- PacketN 2 BigEndian ;;
   observe (Read (SetMaxPacketSize p0 4)
                 (stream_reader [bytes_of [0; 4; 1; 2; 3; 4]]) fresh_buffer))
  = Ret (None, mkReader [] EOF (bytes_of [0; 4; 1; 2; 3; 4]) 2,
         mkBuffer (mkSlice payload [])).
Proof.
  cbv zeta. repeat split; vm_compute; congruence.
Qed.

(** C2: [Write]'s guard at the maximum.  With [n = 2] and
    [MaxPacketSize = 4], a buffer of 6 bytes has a payload of exactly 4
    bytes, which does not exceed the maximum; [Write] nevertheless returns
    [PacketTooLargeError] and writes nothing, because it compares
    [len(buffer.Data)], header included, with the maximum.  A payload of
    2 bytes, a buffer of 4, is the largest it lets through. *)
Theorem Write_rejects_payload_at_maximum :
  let buffer := mkBuffer (mkSlice (bytes_of [0; 0; 1; 2; 3; 4]) []) in
  let smaller := mkBuffer (mkSlice (bytes_of [0; 0; 1; 2]) []) in
  slice_len (Data buffer) - 2 = 4 /\
  (p0 <- PacketN 2 BigEndian ;;
   Write (SetMaxPacketSize p0 4) fresh_writer buffer)
  = Ret (Some PacketTooLargeError, fresh_writer, buffer) /\
  (p0 <- PacketN 2 BigEndian ;;
   Write (SetMaxPacketSize p0 4) fresh_writer smaller)
  = Ret (None, mkWriter (bytes_of [0; 2; 1; 2]) 1 None,
         mkBuffer (mkSlice (bytes_of [0; 2; 1; 2]) [])).
Proof.
  cbv zeta. repeat split; vm_compute; congruence.
Qed.

(** C3: a hint smaller than [n] with a buffer of capacity smaller than
    [n].  With [n = 2] and an empty buffer of capacity 0, a hint of 1
    makes [Packet] evaluate [make([]byte, 2, 1)], and a hint of 0 makes it
    evaluate [buffer.Data[:2]] on a slice of capacity 0; both panic, and
    [WriteBuffer] is never called. *)
Theorem Packet_small_hint_faults :
  slice_cap (Data fresh_buffer) = 0 /\
  (p <- PacketN 2 BigEndian ;; Packet_reserve p fresh_buffer 1)
  = Panic MakesliceCapOutOfRange /\
  (p <- PacketN 2 BigEndian ;; Packet p fresh_buffer (BytesMessage 1 hello))
  = Panic MakesliceCapOutOfRange /\
  (p <- PacketN 2 BigEndian ;; Packet_reserve p fresh_buffer 0)
  = Panic SliceBoundsOutOfRange /\
  (p <- PacketN 2 BigEndian ;; Packet p fresh_buffer (BytesMessage 0 hello))
  = Panic SliceBoundsOutOfRange.
Proof.
  repeat split; vm_compute; congruence.
Qed.

(** C4: an 8-byte header with the top bit set.  [decodeHead] converts the
    unsigned 64-bit value to [int], which gives a negative size: -1 for
    eight bytes of 0xff.  No guard catches it (a negative size does not
    exceed [MaxPacketSize]), and [Read] panics in [buffer.Data[0:size]],
    with or without a maximum set. *)
Theorem Read_top_bit_header_faults :
  let hdr := bytes_of [255; 255; 255; 255; 255; 255; 255; 255] in
  (p <- PacketN 8 BigEndian ;; decodeHead p hdr) = Ret (-1) /\
  (p <- PacketN 8 BigEndian ;;
   observe (Read p (stream_reader [hdr]) fresh_buffer))
  = Panic SliceBoundsOutOfRange /\
  (p <- PacketN 8 LittleEndian ;;
   observe (Read (SetMaxPacketSize p 1024) (stream_reader [hdr]) fresh_buffer))
  = Panic SliceBoundsOutOfRange.
Proof.
  cbv zeta. repeat split; vm_compute; congruence.
Qed.

(** C7: the empty packet from a fresh buffer.  With [n = 2], a message
    that appends nothing and recommends a buffer of 0 bytes, and a buffer
    of capacity 0, [Packet] panics in [buffer.Data[:2]]; no byte reaches
    the wire.  With a maximum of 1 the same message with a hint of 2 gets
    through [Packet], and [Write] returns [PacketTooLargeError] for the
    2-byte buffer, again without writing. *)
Theorem empty_message_fresh_buffer_faults :
  appends (BytesMessage 0 []) [] /\
  (p <- PacketN 2 BigEndian ;;
   send p fresh_writer fresh_buffer (BytesMessage 0 []))
  = Panic SliceBoundsOutOfRange /\
  (p <- PacketN 2 BigEndian ;;
   send (SetMaxPacketSize p 1) fresh_writer fresh_buffer (BytesMessage 2 []))
  = Ret (Some PacketTooLargeError, fresh_writer,
         mkBuffer (mkSlice (bytes_of [0; 0]) [])).
Proof.
  split; [apply BytesMessage_appends|].
  split; vm_compute; congruence.
Qed.

(** ** Construction *)




(** * Further properties of the operations *)

(** ** The transport seen as a stream *)

Lemma read_loop_stream (cs : list (list byte)) (final : error) (need : nat)
    (got : list byte) (err : option error) (cs' : list (list byte)) (k : nat) :
  read_loop cs final need = (got, err, cs', k) ->
  got = take need (concat cs) /\
  concat cs' = drop need (concat cs) /\
  err = if (need <=? length (concat cs))%nat then None else Some final.
Proof.
  intros H. destruct (read_loop_spec _ _ _ _ _ _ _ H) as [Hcat Hres].
  rewrite Hcat.
  destruct Hres as [[-> Hl]|(-> & Hl & ->)].
  - rewrite take_app_length', drop_app_length' by auto.
    rewrite length_app.
    destruct (Nat.leb_spec need (length got + length (concat cs'))); [auto|lia].
  - cbn [concat]. rewrite app_nil_r, take_ge, drop_ge by lia.
    destruct (Nat.leb_spec need (length got)); [lia|auto].
Qed.

(** What [io.ReadFull] returns depends on the bytes to come and on the
    closing error only. *)
Lemma ReadFull_stream (r : Reader) (want : nat)
    (got : list byte) (err : option error) (r' : Reader) :
  ReadFull r want = (got, err, r') ->
  got = take want (remaining r) /\
  remaining r' = drop want (remaining r) /\
  delivered r' = delivered r ++ got /\
  closing r' = closing r /\
  err = if (want <=? length (remaining r))%nat then None
        else if (0 <? length (remaining r))%nat && error_eqb (closing r) EOF
             then Some ErrUnexpectedEOF else Some (closing r).
Proof.
  unfold ReadFull, remaining.
  destruct (read_loop (chunks r) (closing r) want) as [[[g e] cs'] k] eqn:E.
  intros H. injection H as <- <- <-. cbn [chunks delivered closing].
  destruct (read_loop_stream _ _ _ _ _ _ _ E) as (Hg & Hc & He).
  repeat split; auto.
  rewrite He.
  destruct (Nat.leb_spec want (length (concat (chunks r)))); [reflexivity|].
  rewrite Hg, take_ge by lia. reflexivity.
Qed.

Lemma ReadFull_same_stream (r1 r2 : Reader) (want : nat) :
  same_stream r1 r2 ->
  fst (ReadFull r1 want) = fst (ReadFull r2 want) /\
  same_stream (snd (ReadFull r1 want)) (snd (ReadFull r2 want)).
Proof.
  intros (Hrem & Hcl & Hdel).
  destruct (ReadFull r1 want) as [[g1 e1] r1'] eqn:E1.
  destruct (ReadFull r2 want) as [[g2 e2] r2'] eqn:E2.
  destruct (ReadFull_stream _ _ _ _ _ E1) as (Hg1 & Hr1 & Hd1 & Hc1 & He1).
  destruct (ReadFull_stream _ _ _ _ _ E2) as (Hg2 & Hr2 & Hd2 & Hc2 & He2).
  cbn [fst snd]. unfold same_stream.
  rewrite Hg1, Hg2, He1, He2, Hr1, Hr2, Hd1, Hd2, Hc1, Hc2, Hg1, Hg2, Hrem, Hcl, Hdel.
  auto.
Qed.

(** X13: [Read] does not depend on how the transport cuts the stream
    into reads.  Two readers over the same stream (same bytes to come,
    same closing error) make [Read] return the same error, the same
    protocol state and the same buffer, or panic alike, and they stand at
    the same point of the stream afterwards.  In particular a reader that
    delivers one byte per call gives what a reader delivering everything
    at once gives. *)
Theorem Read_chunking_independent (p : SimpleProtocol) (r1 r2 : Reader) (b : Buffer) :
  same_stream r1 r2 ->
  match Read p r1 b, Read p r2 b with
  | Ret (e1, p1, r1', b1), Ret (e2, p2, r2', b2) =>
      e1 = e2 /\ p1 = p2 /\ b1 = b2 /\ same_stream r1' r2'
  | Panic f1, Panic f2 => f1 = f2
  | _, _ => False
  end.
Proof.
  intros Hs. unfold Read.
  destruct (ReadFull_same_stream r1 r2 (length (elems (head p))) Hs) as [Hf Hs1].
  destruct (ReadFull r1 (length (elems (head p)))) as [[g1 e1] r1'].
  destruct (ReadFull r2 (length (elems (head p)))) as [[g2 e2] r2'].
  cbn [fst snd] in Hf, Hs1. injection Hf as <- <-.
  destruct e1 as [e|]; [auto|].
  cbn [head set_head decodeHead MaxPacketSize].
  destruct (decodeHead p (elems (fill (head p) g1))) as [size|f]; cbn [bind]; [|reflexivity].
  destruct ((MaxPacketSize p >? 0) && (size >? MaxPacketSize p)); [auto|].
  destruct (if slice_cap (Data b) <? size
            then make_slice size size else reslice (Data b) size) as [data|f];
    cbn [bind]; [|reflexivity].
  destruct (size =? 0); [auto|].
  destruct (ReadFull_same_stream r1' r2' (length (elems data)) Hs1) as [Hf2 Hs2].
  destruct (ReadFull r1' (length (elems data))) as [[g3 e3] r3].
  destruct (ReadFull r2' (length (elems data))) as [[g4 e4] r4].
  cbn [fst snd] in Hf2, Hs2. injection Hf2 as <- <-. auto.
Qed.

Lemma Read_chunking_independent_witness :
  exists p, PacketN 2 BigEndian = Ret p /\
  let r1 := stream_reader [bytes_of [0; 3; 65; 66; 67; 9]] in
  let r2 := stream_reader (map (fun x => [x]) (bytes_of [0; 3; 65; 66; 67; 9])) in
  same_stream r1 r2 /\
  match Read p r1 fresh_buffer, Read p r2 fresh_buffer with
  | Ret (e1, p1, r1', b1), Ret (e2, p2, r2', b2) =>
      e1 = e2 /\ p1 = p2 /\ b1 = b2 /\ same_stream r1' r2'
  | Panic f1, Panic f2 => f1 = f2
  | _, _ => False
  end.
Proof.
  eexists. split; [reflexivity|]. cbv zeta.
  assert (H : same_stream (stream_reader [bytes_of [0; 3; 65; 66; 67; 9]])
                (stream_reader (map (fun x => [x]) (bytes_of [0; 3; 65; 66; 67; 9]))))
    by (repeat split; reflexivity).
  split; [exact H|].
  apply (Read_chunking_independent _ _ _ fresh_buffer H).
Defined.

(** ** The paths through [Read] *)

Lemma resize_shape (buffer : Buffer) (size : Z) :
  0 <= size ->
  exists data,
    (if slice_cap (Data buffer) <? size
     then make_slice size size else reslice (Data buffer) size) = Ret data /\
    length (elems data) = Z.to_nat size /\
    slice_cap data = Z.max (slice_cap (Data buffer)) size /\
    (slice_cap (Data buffer) < size -> backing data = replicate (Z.to_nat size) x00) /\
    (size <= slice_cap (Data buffer) -> backing data = backing (Data buffer)).
Proof.
  intros Hs.
  destruct (Z.ltb_spec (slice_cap (Data buffer)) size) as [Hlt|Hge].
  - rewrite make_slice_header by lia. eexists. split; [reflexivity|].
    unfold slice_cap at 1, backing. cbn [elems spare length].
    rewrite app_nil_r, length_replicate.
    split; [reflexivity|]. split; [lia|]. split; [reflexivity|lia].
  - unfold reslice.
    destruct (Z.ltb_spec size 0); [lia|].
    destruct (Z.ltb_spec (slice_cap (Data buffer)) size); [lia|].
    eexists. split; [reflexivity|].
    unfold slice_cap, backing in *. cbn [elems spare orb].
    rewrite length_take, length_drop, length_app, take_drop.
    split; [lia|]. split; [lia|]. split; [lia|reflexivity].
Qed.

Lemma fill_cap (s : slice) (got : list byte) :
  (length got <= length (elems s))%nat ->
  slice_cap (fill s got) = slice_cap s /\
  length (elems (fill s got)) = length (elems s).
Proof.
  intros H. unfold slice_cap, fill. cbn [elems spare].
  rewrite length_app, length_drop. split; lia.
Qed.

(** The header has arrived, its value fits [int] and passes the guard. *)
Lemma Read_body (width : Z) (order : ByteOrder) (p : SimpleProtocol)
    (r : Reader) (b : Buffer) (hdr rest : list byte) :
  built width order p ->
  remaining r = hdr ++ rest ->
  length hdr = Z.to_nat width ->
  uint_value order hdr <= max_int ->
  within_max p (uint_value order hdr) ->
  exists p1 r1 data,
    remaining r1 = rest /\
    delivered r1 = delivered r ++ hdr /\
    closing r1 = closing r /\
    built width order p1 /\
    MaxPacketSize p1 = MaxPacketSize p /\
    length (elems data) = Z.to_nat (uint_value order hdr) /\
    slice_cap data = Z.max (slice_cap (Data b)) (uint_value order hdr) /\
    Read p r b =
      if uint_value order hdr =? 0 then Ret (None, p1, r1, mkBuffer data)
      else
        let '(got2, err2, r2) := ReadFull r1 (length (elems data)) in
        Ret (err2, p1, r2, mkBuffer (fill data got2)).
Proof.
  intros Hb Hrem Hlen Hfit Hm.
  pose proof (uint_value_range order hdr) as [H0 _].
  destruct (Read_after_header width order p r b hdr rest Hb Hrem Hlen)
    as (p1 & r1 & _ & Hrest & Hdel & Hcl & Hb1 & Hm1 & _ & ->).
  cbv zeta. rewrite to_int_small by lia.
  replace ((MaxPacketSize p >? 0) && (uint_value order hdr >? MaxPacketSize p))
    with false.
  2:{ destruct (Z.gtb_spec (MaxPacketSize p) 0); [|reflexivity].
      destruct (Z.gtb_spec (uint_value order hdr) (MaxPacketSize p)); [|reflexivity].
      destruct Hm; lia. }
  destruct (resize_shape b (uint_value order hdr) H0) as (data & -> & Hd & Hc & _).
  cbn [bind]. exists p1, r1, data. repeat split; auto.
Qed.

(** The header does not arrive. *)
Lemma Read_short_header (width : Z) (order : ByteOrder) (p : SimpleProtocol)
    (r : Reader) (b : Buffer) :
  built width order p ->
  (length (remaining r) < Z.to_nat width)%nat ->
  exists p1 r1,
    Read p r b =
      Ret (Some (if (0 <? length (remaining r))%nat && error_eqb (closing r) EOF
                 then ErrUnexpectedEOF else closing r), p1, r1, b) /\
    remaining r1 = [] /\
    delivered r1 = delivered r ++ remaining r.
Proof.
  intros Hb Hshort. unfold Read. rewrite (built_head_length _ _ _ Hb).
  destruct (ReadFull r (Z.to_nat width)) as [[got err] r1] eqn:E.
  destruct (ReadFull_stream _ _ _ _ _ E) as (Hg & Hr & Hd & _ & ->).
  destruct (Nat.leb_spec (Z.to_nat width) (length (remaining r))); [lia|].
  eexists _, r1.
  split; [destruct ((0 <? length (remaining r))%nat && error_eqb (closing r) EOF);
          reflexivity|].
  rewrite Hr, Hd, Hg, take_ge, drop_ge by lia. auto.
Qed.

(** Every run of [Read] on a protocol built by [PacketN] takes one of
    four paths. *)
Lemma Read_cases (width : Z) (order : ByteOrder) (p : SimpleProtocol)
    (r : Reader) (b : Buffer) :
  built width order p ->
  ((length (remaining r) < Z.to_nat width)%nat /\
   exists e p1 r1, Read p r b = Ret (Some e, p1, r1, b)) \/
  exists hdr rest,
    remaining r = hdr ++ rest /\ length hdr = Z.to_nat width /\
    ((max_int < uint_value order hdr /\ Read p r b = Panic SliceBoundsOutOfRange) \/
     (uint_value order hdr <= max_int /\ ~ within_max p (uint_value order hdr) /\
      exists p1 r1, Read p r b = Ret (Some PacketTooLargeError, p1, r1, b)) \/
     (uint_value order hdr <= max_int /\ within_max p (uint_value order hdr))).
Proof.
  intros Hb.
  destruct (le_lt_dec (Z.to_nat width) (length (remaining r))) as [Hle|Hlt].
  - right. exists (take (Z.to_nat width) (remaining r)),
                  (drop (Z.to_nat width) (remaining r)).
    assert (Hrem : remaining r = take (Z.to_nat width) (remaining r) ++
                                 drop (Z.to_nat width) (remaining r))
      by (symmetry; apply take_drop).
    assert (Hlen : length (take (Z.to_nat width) (remaining r)) = Z.to_nat width)
      by (rewrite length_take; lia).
    split; [exact Hrem|]. split; [exact Hlen|].
    set (hdr := take (Z.to_nat width) (remaining r)) in *.
    set (rest := drop (Z.to_nat width) (remaining r)) in *.
    destruct (Z_lt_le_dec max_int (uint_value order hdr)) as [Hbig|Hfit].
    + left. split; [exact Hbig|].
      apply (Read_negative_size_faults width order p r b hdr rest); assumption.
    + right.
      pose proof (uint_value_range order hdr) as [H0 _].
      destruct (Z_le_gt_dec (MaxPacketSize p) 0) as [Hm|Hm];
        [right; split; [exact Hfit|left; exact Hm]|].
      destruct (Z_le_gt_dec (uint_value order hdr) (MaxPacketSize p)) as [Hs|Hs];
        [right; split; [exact Hfit|right; exact Hs]|].
      left. split; [exact Hfit|]. split; [unfold within_max; lia|].
      destruct (Read_too_large width order p r b hdr rest Hb Hrem Hlen)
        as (p1 & r1 & HR & _); [lia|rewrite to_int_small by lia; lia|].
      eauto.
  - left. split; [exact Hlt|].
    destruct (Read_short_header width order p r b Hb Hlt) as (p1 & r1 & HR & _).
    eauto.
Qed.

Lemma narrow_header_bound (width : Z) :
  supported width -> width <> 8 -> 0 <= width /\ 2 ^ (8 * width) <= max_int.
Proof.
  intros [->|[->|[->| ->]]] Hne; try congruence;
    (split; [lia|vm_compute; discriminate]).
Qed.

Lemma Read_success_shape (width : Z) (order : ByteOrder) (p : SimpleProtocol)
    (r : Reader) (b : Buffer) (p' : SimpleProtocol) (r' : Reader) (b' : Buffer) :
  built width order p ->
  Read p r b = Ret (None, p', r', b') ->
  exists hdr,
    remaining r = hdr ++ elems (Data b') ++ remaining r' /\
    length hdr = Z.to_nat width /\
    uint_value order hdr = slice_len (Data b') /\
    within_max p (slice_len (Data b')) /\
    delivered r' = delivered r ++ hdr ++ elems (Data b') /\
    slice_cap (Data b') = Z.max (slice_cap (Data b)) (slice_len (Data b')).
Proof.
  intros Hb HR.
  destruct (Read_cases width order p r b Hb)
    as [[_ (e & p1 & r1 & HR1)]|(hdr & rest & Hrem & Hlen & Hcase)];
    [rewrite HR1 in HR; discriminate HR|].
  destruct Hcase as [[_ HP]|[(_ & _ & p1 & r1 & HR1)|[Hfit Hm]]];
    [rewrite HP in HR; discriminate HR|rewrite HR1 in HR; discriminate HR|].
  pose proof (uint_value_range order hdr) as [H0 _].
  destruct (Read_body width order p r b hdr rest Hb Hrem Hlen Hfit Hm)
    as (p1 & r1 & data & Hrest & Hdel & _ & _ & _ & Hd & Hc & HR1).
  rewrite HR1 in HR. clear HR1. exists hdr.
  destruct (Z.eqb_spec (uint_value order hdr) 0) as [Hz|Hnz].
  - injection HR as <- <- <-. cbn [Data]. unfold slice_len.
    rewrite Hz in *. destruct (elems data); [|discriminate Hd].
    cbn [app length]. rewrite app_nil_r.
    rewrite Hrem, Hrest. repeat split; auto.
  - destruct (ReadFull r1 (length (elems data))) as [[got2 err2] r2] eqn:E2.
    injection HR as -> <- <- <-.
    destruct (ReadFull_spec _ _ _ _ _ E2) as (Hcat & Hdel2 & _ & [[_ Hl]|[Hne _]]);
      [|congruence].
    destruct (fill_cap data got2 ltac:(lia)) as [Hfc Hfl].
    cbn [Data]. unfold slice_len. rewrite fill_whole by exact Hl.
    rewrite Hfc, Hc, Hl, Hd, Z2Nat.id by lia.
    rewrite Hrem, <- Hrest, Hcat, Hdel2, Hdel, <- app_assoc.
    repeat split; auto.
Qed.

(** X15: [Read] returns without error only after a complete packet.  If
    [Read] returns [nil], the stream began with [n] header bytes whose
    unsigned value is the length of the buffer, followed by exactly the
    bytes now in the buffer; the length passed the size guard; and the
    reader has handed out these bytes and nothing after them. *)
Theorem Read_success_consumes_packet (width : Z) (order : ByteOrder)
    (p : SimpleProtocol) (r : Reader) (b : Buffer)
    (p' : SimpleProtocol) (r' : Reader) (b' : Buffer) :
  built width order p ->
  Read p r b = Ret (None, p', r', b') ->
  exists hdr,
    remaining r = hdr ++ elems (Data b') ++ remaining r' /\
    length hdr = Z.to_nat width /\
    uint_value order hdr = slice_len (Data b') /\
    within_max p (slice_len (Data b')) /\
    delivered r' = delivered r ++ hdr ++ elems (Data b').
Proof.
  intros Hb HR.
  destruct (Read_success_shape width order p r b p' r' b' Hb HR)
    as (hdr & H1 & H2 & H3 & H4 & H5 & _).
  exists hdr. auto.
Qed.

(** X16: a successful [Read] reuses the caller's array when it is large
    enough and allocates exactly the payload length otherwise: the
    capacity afterwards is the larger of the old capacity and the payload
    length, so it never shrinks. *)
Theorem Read_capacity (width : Z) (order : ByteOrder)
    (p : SimpleProtocol) (r : Reader) (b : Buffer)
    (p' : SimpleProtocol) (r' : Reader) (b' : Buffer) :
  built width order p ->
  Read p r b = Ret (None, p', r', b') ->
  slice_cap (Data b') = Z.max (slice_cap (Data b)) (slice_len (Data b')) /\
  slice_cap (Data b) <= slice_cap (Data b').
Proof.
  intros Hb HR.
  destruct (Read_success_shape width order p r b p' r' b' Hb HR)
    as (hdr & _ & _ & _ & _ & _ & Hc).
  split; [exact Hc|lia].
Qed.

(** X17: the only part of the protocol value [Read] changes is the
    scratch header, which afterwards holds the header bytes that arrived
    (over its old contents) and keeps its length.  Width, byte order,
    maximum and the two closures are those of the protocol before the
    call, whatever [Read] returns. *)
Theorem Read_keeps_protocol (p : SimpleProtocol) (r : Reader) (b : Buffer)
    (e : option error) (p' : SimpleProtocol) (r' : Reader) (b' : Buffer) :
  Read p r b = Ret (e, p', r', b') ->
  let arrived := take (length (elems (head p))) (remaining r) in
  p' = set_head p (fill (head p) arrived) /\
  length (elems (head p')) = length (elems (head p)) /\
  (forall width order, built width order p -> built width order p').
Proof.
  intros HR arrived.
  assert (Hp : p' = set_head p (fill (head p) arrived)).
  { unfold Read in HR.
    destruct (ReadFull r (length (elems (head p)))) as [[got err] r1] eqn:E.
    destruct (ReadFull_stream _ _ _ _ _ E) as (Hg & _). fold arrived in Hg. subst got.
    destruct err as [e1|]; [injection HR as _ <- _ _; reflexivity|].
    destruct (decodeHead _ _) as [size|]; cbn [bind] in HR; [|discriminate HR].
    destruct (_ && _); [injection HR as _ <- _ _; reflexivity|].
    destruct (if slice_cap (Data b) <? size then _ else _) as [data|];
      cbn [bind] in HR; [|discriminate HR].
    destruct (size =? 0); [injection HR as _ <- _ _; reflexivity|].
    destruct (ReadFull r1 (length (elems data))) as [[got2 err2] r2].
    injection HR as _ <- _ _. reflexivity. }
  assert (Hl : length (elems (head p')) = length (elems (head p))).
  { subst p'. cbn [head set_head]. unfold fill. cbn [elems].
    rewrite length_app, length_drop.
    assert (length arrived <= length (elems (head p)))%nat
      by (unfold arrived; rewrite length_take; lia).
    lia. }
  split; [exact Hp|]. split; [exact Hl|].
  intros width order Hb.
  pose proof (built_head_length _ _ _ Hb) as Hh.
  rewrite Hp. apply built_set_head; [exact Hb|].
  rewrite Hp in Hl. cbn [head set_head] in Hl. lia.
Qed.

(** X18: with a header of 1, 2 or 4 bytes [Read] never panics: whatever
    the reader delivers and whatever buffer it is given, it returns. *)
Theorem Read_narrow_never_faults (width : Z) (order : ByteOrder)
    (p : SimpleProtocol) (r : Reader) (b : Buffer) :
  built width order p ->
  width <> 8 ->
  exists e p' r' b', Read p r b = Ret (e, p', r', b').
Proof.
  intros Hb Hw.
  destruct (narrow_header_bound width (built_supported _ _ _ Hb) Hw) as [H0 Hle].
  destruct (Read_cases width order p r b Hb)
    as [[_ (e & p1 & r1 & HR1)]|(hdr & rest & Hrem & Hlen & Hcase)];
    [eauto|].
  pose proof (uint_value_range order hdr) as Hr.
  rewrite Hlen, Z2Nat.id in Hr by lia.
  destruct Hcase as [[Hbig _]|[(_ & _ & p1 & r1 & HR1)|[Hfit Hm]]];
    [lia|eauto|].
  destruct (Read_body width order p r b hdr rest Hb Hrem Hlen Hfit Hm)
    as (p1 & r1 & data & _ & _ & _ & _ & _ & _ & _ & ->).
  destruct (uint_value order hdr =? 0); [eauto|].
  destruct (ReadFull r1 (length (elems data))) as [[got2 err2] r2]. eauto.
Qed.


Lemma Read_success_consumes_packet_witness :
  exists p, PacketN 2 BigEndian = Ret p /\
  let r := stream_reader [bytes_of [0; 3; 65]; bytes_of [66; 67; 9]] in
  let p' := set_head p (fill (head p) (bytes_of [0; 3])) in
  let r' := mkReader [bytes_of [9]] EOF (bytes_of [0; 3; 65; 66; 67]) 3 in
  let b' := mkBuffer (mkSlice (bytes_of [65; 66; 67]) []) in
  Read p r fresh_buffer = Ret (None, p', r', b') /\
  exists hdr,
    remaining r = hdr ++ elems (Data b') ++ remaining r' /\
    length hdr = Z.to_nat 2 /\
    uint_value BigEndian hdr = slice_len (Data b') /\
    within_max p (slice_len (Data b')) /\
    delivered r' = delivered r ++ hdr ++ elems (Data b').
Proof.
  eexists. split; [reflexivity|]. cbv zeta.
  match goal with |- ?A /\ _ => assert (H : A) by reflexivity end.
  split; [exact H|].
  apply (Read_success_consumes_packet 2 BigEndian _ _ _ _ _ _
           (built_fresh 2 BigEndian _ eq_refl) H).
Defined.

Lemma Read_capacity_witness :
  exists p, PacketN 1 LittleEndian = Ret p /\
  let r := stream_reader [bytes_of [2; 65; 66]] in
  let b := mkBuffer (mkSlice (bytes_of [1]) (bytes_of [2; 3; 4; 5])) in
  let p' := set_head p (fill (head p) (bytes_of [2])) in
  let r' := mkReader [] EOF (bytes_of [2; 65; 66]) 2 in
  let b' := mkBuffer (mkSlice (bytes_of [65; 66]) (bytes_of [3; 4; 5])) in
  Read p r b = Ret (None, p', r', b') /\
  slice_cap (Data b') = Z.max (slice_cap (Data b)) (slice_len (Data b')) /\
  slice_cap (Data b) <= slice_cap (Data b').
Proof.
  eexists. split; [reflexivity|]. cbv zeta.
  match goal with |- ?A /\ _ => assert (H : A) by reflexivity end.
  split; [exact H|].
  apply (Read_capacity 1 LittleEndian _ _ _ _ _ _
           (built_fresh 1 LittleEndian _ eq_refl) H).
Defined.

Lemma Read_keeps_protocol_witness :
  exists p, PacketN 2 BigEndian = Ret p /\
  let r := stream_reader [bytes_of [0; 3; 65]] in
  let p' := set_head p (fill (head p) (bytes_of [0; 3])) in
  let r' := mkReader [] EOF (bytes_of [0; 3; 65]) 3 in
  let b' := mkBuffer (mkSlice (bytes_of [65; 0; 0]) []) in
  Read p r fresh_buffer = Ret (Some ErrUnexpectedEOF, p', r', b') /\
  let arrived := take (length (elems (head p))) (remaining r) in
  p' = set_head p (fill (head p) arrived) /\
  length (elems (head p')) = length (elems (head p)) /\
  (forall width order, built width order p -> built width order p').
Proof.
  eexists. split; [reflexivity|]. cbv zeta.
  match goal with |- ?A /\ _ => assert (H : A) by reflexivity end.
  split; [exact H|].
  apply (Read_keeps_protocol _ _ _ _ _ _ _ H).
Defined.

Lemma Read_narrow_never_faults_witness :
  exists p, PacketN 4 BigEndian = Ret p /\
  exists e p' r' b',
    Read p (stream_reader [bytes_of [255; 255; 255; 255; 1]]) fresh_buffer
    = Ret (e, p', r', b').
Proof.
  eexists. split; [reflexivity|].
  apply (Read_narrow_never_faults 4 BigEndian).
  - apply built_fresh. reflexivity.
  - lia.
Defined.


(** ** Streams that end early *)

(** X20: a stream that ends before the [n] header bytes.  [Read] returns
    with the buffer untouched.  At a clean end, with no byte left, the
    error is the reader's own ([EOF] at the end of a stream); when the
    stream ends inside the header, [EOF] becomes [ErrUnexpectedEOF] and
    any other transport error is returned as it is. *)
Theorem Read_truncated_header (width : Z) (order : ByteOrder) (p : SimpleProtocol)
    (r : Reader) (b : Buffer) :
  built width order p ->
  (length (remaining r) < Z.to_nat width)%nat ->
  exists p' r',
    Read p r b =
      Ret (Some match remaining r with
                | [] => closing r
                | _ :: _ => if error_eqb (closing r) EOF
                            then ErrUnexpectedEOF else closing r
                end, p', r', b) /\
    remaining r' = [] /\
    delivered r' = delivered r ++ remaining r.
Proof.
  intros Hb Hshort.
  destruct (Read_short_header width order p r b Hb Hshort) as (p1 & r1 & HR & Hr & Hd).
  exists p1, r1. split; [|auto].
  rewrite HR. destruct (remaining r); reflexivity.
Qed.

Lemma Read_truncated_header_witness :
  exists p, PacketN 4 BigEndian = Ret p /\
  let r := stream_reader [bytes_of [0; 0]] in
  exists p' r',
    Read p r fresh_buffer =
      Ret (Some match remaining r with
                | [] => closing r
                | _ :: _ => if error_eqb (closing r) EOF
                            then ErrUnexpectedEOF else closing r
                end, p', r', fresh_buffer) /\
    remaining r' = [] /\
    delivered r' = delivered r ++ remaining r.
Proof.
  eexists. split; [reflexivity|].
  apply (Read_truncated_header 4 BigEndian).
  - apply built_fresh. reflexivity.
  - vm_compute. lia.
Defined.



(** ** Packets one after the other *)

Lemma frame_header (order : ByteOrder) (width : Z) (payload : list byte) :
  0 <= width ->
  Z.of_nat (length payload) < 2 ^ (8 * width) ->
  length (header_bytes order (Z.of_nat (length payload)) (Z.to_nat width))
    = Z.to_nat width /\
  uint_value order (header_bytes order (Z.of_nat (length payload)) (Z.to_nat width))
    = Z.of_nat (length payload).
Proof.
  intros Hw Hfit. split; [apply length_header_bytes|].
  rewrite uint_value_header_bytes, Z2Nat.id by lia.
  apply Z.mod_small. lia.
Qed.

Lemma Reads_frames (width : Z) (order : ByteOrder) (M : Z)
    (payloads : list (list byte)) :
  Forall (fun payload =>
            Z.of_nat (length payload) < 2 ^ (8 * width) /\
            Z.of_nat (length payload) <= max_int /\
            (M <= 0 \/ Z.of_nat (length payload) <= M)) payloads ->
  forall p r b tail,
    built width order p ->
    MaxPacketSize p = M ->
    remaining r = concat (map (frame order width) payloads) ++ tail ->
    exists p' r' b',
      Reads p r b payloads p' r' b' /\
      remaining r' = tail /\
      delivered r' = delivered r ++ concat (map (frame order width) payloads).
Proof.
  induction 1 as [|payload rest (Hfit & Hint & Hm) _ IH]; intros p r b tail Hb HM Hrem.
  - exists p, r, b. cbn [map concat app] in *. rewrite app_nil_r.
    split; [constructor|auto].
  - assert (Hw : 0 <= width)
      by (destruct (built_supported _ _ _ Hb) as [->|[->|[->| ->]]]; lia).
    destruct (frame_header order width payload Hw Hfit) as [Hlen Hval].
    cbn [map concat] in Hrem. unfold frame at 1 in Hrem.
    rewrite <- !app_assoc in Hrem.
    destruct (Read_packet width order p r b _ payload _ Hb Hrem Hlen)
      as (p1 & r1 & b1 & HR & He & Hr1 & Hd1 & Hb1 & HM1 & _).
    { rewrite Hval. apply to_int_small. lia. }
    { rewrite HM. exact Hm. }
    destruct (IH p1 r1 b1 tail Hb1 ltac:(congruence) Hr1)
      as (p2 & r2 & b2 & HRs & Hr2 & Hd2).
    exists p2, r2, b2. split; [|split; [exact Hr2|]].
    + rewrite <- He. econstructor; eassumption.
    + rewrite Hd2, Hd1. cbn [map concat].
      change (frame order width payload)
        with (header_bytes order (Z.of_nat (length payload)) (Z.to_nat width)
              ++ payload).
      rewrite <- !app_assoc. reflexivity.
Qed.

(** X12: adjacency.  When the stream holds the frames of several
    payloads one after the other (each payload fitting the header and the
    maximum), as many calls of [Read] on the same buffer return the
    payloads in order, each call starting where the previous one stopped;
    the reader ends right after the last frame. *)
Theorem Reads_adjacent_frames (width : Z) (order : ByteOrder) (p : SimpleProtocol)
    (r : Reader) (b : Buffer) (payloads : list (list byte)) (tail : list byte) :
  built width order p ->
  Forall (fun payload =>
            Z.of_nat (length payload) < 2 ^ (8 * width) /\
            Z.of_nat (length payload) <= max_int /\
            within_max p (Z.of_nat (length payload))) payloads ->
  remaining r = concat (map (frame order width) payloads) ++ tail ->
  exists p' r' b',
    Reads p r b payloads p' r' b' /\
    remaining r' = tail /\
    delivered r' = delivered r ++ concat (map (frame order width) payloads).
Proof.
  intros Hb Hall Hrem.
  apply (Reads_frames width order (MaxPacketSize p) payloads Hall p r b tail Hb eq_refl Hrem).
Qed.

Lemma Reads_adjacent_frames_witness :
  exists p, PacketN 1 BigEndian = Ret p /\
  let payloads := [bytes_of [65; 66; 67]; []; bytes_of [88; 89]] in
  let r := stream_reader [bytes_of [3; 65; 66]; bytes_of [67; 0; 2; 88]; bytes_of [89; 7]] in
  exists p' r' b',
    Reads p r fresh_buffer payloads p' r' b' /\
    remaining r' = bytes_of [7] /\
    delivered r' = delivered r ++ concat (map (frame BigEndian 1) payloads).
Proof.
  eexists. split; [reflexivity|].
  apply (Reads_adjacent_frames 1 BigEndian).
  - apply built_fresh. reflexivity.
  - repeat constructor; try (vm_compute; congruence).
  - reflexivity.
Defined.

(** ** More on [Write] *)

Lemma Write_short (width : Z) (order : ByteOrder) (p : SimpleProtocol)
    (writer : Writer) (buffer : Buffer) :
  built width order p ->
  within_max p (slice_len (Data buffer)) ->
  slice_len (Data buffer) < width ->
  Write p writer buffer = Panic IndexOutOfRange.
Proof.
  intros Hb Hm Hl. unfold Write.
  replace ((MaxPacketSize p >? 0) && (slice_len (Data buffer) >? MaxPacketSize p))
    with false.
  2:{ destruct (Z.gtb_spec (MaxPacketSize p) 0); [|reflexivity].
      destruct (Z.gtb_spec (slice_len (Data buffer)) (MaxPacketSize p));
        [destruct Hm; lia|reflexivity]. }
  unfold slice_len in Hl.
  rewrite (built_encodeHead_short width order) by (auto; lia). reflexivity.
Qed.

(** X3: [Write] panics exactly when the buffer is shorter than the header
    and the size guard does not return first; the panic is the index
    check of the header encoder, and the writer is not called. *)
Theorem Write_faults_iff (width : Z) (order : ByteOrder) (p : SimpleProtocol)
    (writer : Writer) (buffer : Buffer) :
  built width order p ->
  (exists f, Write p writer buffer = Panic f) <->
  (slice_len (Data buffer) < width /\ within_max p (slice_len (Data buffer))).
Proof.
  intros Hb. split.
  - intros [f HP].
    destruct (Z_le_gt_dec (MaxPacketSize p) 0) as [Hm|Hm];
      [|destruct (Z_le_gt_dec (slice_len (Data buffer)) (MaxPacketSize p)) as [Hs|Hs]].
    3:{ rewrite Write_guard in HP by assumption. discriminate HP. }
    all: assert (Hwm : within_max p (slice_len (Data buffer)))
           by (unfold within_max; lia).
    all: split; [|exact Hwm].
    all: destruct (Z_lt_le_dec (slice_len (Data buffer)) width) as [|Hge]; [assumption|].
    all: exfalso.
    all: rewrite (Write_stamps width order p writer buffer Hb Hwm Hge) in HP.
    all: discriminate HP.
  - intros [Hl Hm]. exists IndexOutOfRange.
    apply (Write_short width order); assumption.
Qed.

Lemma Write_faults_iff_witness :
  exists p, PacketN 4 BigEndian = Ret p /\
  let buffer := mkBuffer (mkSlice (bytes_of [1; 2; 3]) (bytes_of [0; 0; 0; 0; 0])) in
  ((exists f, Write p fresh_writer buffer = Panic f) <->
   (slice_len (Data buffer) < 4 /\ within_max p (slice_len (Data buffer)))).
Proof.
  eexists. split; [reflexivity|].
  apply (Write_faults_iff 4 BigEndian).
  apply built_fresh. reflexivity.
Defined.

(** X5: a writer that fails.  [Write] returns the writer's error as it
    is, after one call of the writer; the header has been stamped into
    the caller's buffer all the same. *)
Theorem Write_failing_writer (width : Z) (order : ByteOrder) (p : SimpleProtocol)
    (writer : Writer) (buffer : Buffer) (e : error) :
  built width order p ->
  within_max p (slice_len (Data buffer)) ->
  width <= slice_len (Data buffer) ->
  broken writer = Some e ->
  exists writer' buffer',
    Write p writer buffer = Ret (Some e, writer', buffer') /\
    sink writer' = sink writer /\
    wcalls writer' = S (wcalls writer) /\
    elems (Data buffer') =
      header_bytes order ((slice_len (Data buffer) - width) mod 2 ^ (8 * width))
                   (Z.to_nat width)
      ++ drop (Z.to_nat width) (elems (Data buffer)).
Proof.
  intros Hb Hm Hl Hw.
  rewrite (Write_stamps width order p writer buffer Hb Hm Hl).
  unfold writer_Write. rewrite Hw. cbn [fst snd].
  eexists _, _. split; [reflexivity|]. cbn [sink wcalls Data elems]. auto.
Qed.

Lemma Write_failing_writer_witness :
  exists p, PacketN 2 LittleEndian = Ret p /\
  let writer := mkWriter (bytes_of [9]) 7 (Some (TransportError 1)) in
  let buffer := mkBuffer (mkSlice (bytes_of [0; 0; 65; 66; 67]) []) in
  exists writer' buffer',
    Write p writer buffer = Ret (Some (TransportError 1), writer', buffer') /\
    sink writer' = sink writer /\
    wcalls writer' = S (wcalls writer) /\
    elems (Data buffer') =
      header_bytes LittleEndian ((slice_len (Data buffer) - 2) mod 2 ^ (8 * 2))
                   (Z.to_nat 2)
      ++ drop (Z.to_nat 2) (elems (Data buffer)).
Proof.
  eexists. split; [reflexivity|].
  apply (Write_failing_writer 2 LittleEndian).
  - apply built_fresh. reflexivity.
  - left. simpl. lia.
  - vm_compute. discriminate.
  - reflexivity.
Defined.

(** X6: writing a buffer again sends the same packet again.  After a
    [Write] that returned [nil], the buffer holds what went to the
    writer, and a second [Write] of it stamps the same header and sends
    the same bytes. *)
Theorem Write_again_same_packet (width : Z) (order : ByteOrder) (p : SimpleProtocol)
    (writer writer1 : Writer) (buffer buffer1 : Buffer) :
  built width order p ->
  Write p writer buffer = Ret (None, writer1, buffer1) ->
  sink writer1 = sink writer ++ elems (Data buffer1) /\
  exists writer2,
    Write p writer1 buffer1 = Ret (None, writer2, buffer1) /\
    sink writer2 = sink writer1 ++ elems (Data buffer1).
Proof.
  intros Hb HW.
  assert (Hpos : 0 < width)
    by (destruct (built_supported _ _ _ Hb) as [->|[->|[->| ->]]]; lia).
  assert (Hm : within_max p (slice_len (Data buffer))).
  { destruct (Z_le_gt_dec (MaxPacketSize p) 0) as [Hm|Hm]; [left; exact Hm|].
    destruct (Z_le_gt_dec (slice_len (Data buffer)) (MaxPacketSize p)) as [Hs|Hs];
      [right; exact Hs|].
    rewrite Write_guard in HW by assumption. discriminate HW. }
  assert (Hl : width <= slice_len (Data buffer)).
  { destruct (Z_lt_le_dec (slice_len (Data buffer)) width) as [Hlt|]; [|assumption].
    rewrite (Write_short width order) in HW by assumption. discriminate HW. }
  rewrite (Write_stamps width order p writer buffer Hb Hm Hl) in HW.
  unfold writer_Write in HW.
  destruct (broken writer) as [e|] eqn:Hw; cbn [fst snd] in HW; [discriminate HW|].
  injection HW as <- <-. cbn [sink Data elems spare].
  set (hdr := header_bytes order
                ((slice_len (Data buffer) - width) mod 2 ^ (8 * width))
                (Z.to_nat width)).
  assert (Hh : length hdr = Z.to_nat width) by apply length_header_bytes.
  split; [reflexivity|].
  set (buffer1 := mkBuffer (mkSlice (hdr ++ drop (Z.to_nat width) (elems (Data buffer)))
                                    (spare (Data buffer)))).
  assert (Hlen1 : slice_len (Data buffer1) = slice_len (Data buffer)).
  { unfold slice_len in *. cbn [buffer1 Data elems].
    rewrite length_app, Hh, length_drop. lia. }
  rewrite (Write_stamps width order p _ buffer1 Hb) by (rewrite Hlen1; assumption).
  rewrite Hlen1. cbn [buffer1 Data elems spare].
  rewrite drop_app_length' by (symmetry; exact Hh). fold hdr.
  unfold writer_Write. cbn [broken fst snd sink].
  eexists. split; reflexivity.
Qed.

Lemma Write_again_same_packet_witness :
  exists p, PacketN 2 BigEndian = Ret p /\
  let buffer := mkBuffer (mkSlice (bytes_of [7; 7; 65; 66]) []) in
  let buffer1 := mkBuffer (mkSlice (bytes_of [0; 2; 65; 66]) []) in
  let writer1 := mkWriter (bytes_of [0; 2; 65; 66]) 1 None in
  Write p fresh_writer buffer = Ret (None, writer1, buffer1) /\
  sink writer1 = sink fresh_writer ++ elems (Data buffer1) /\
  exists writer2,
    Write p writer1 buffer1 = Ret (None, writer2, buffer1) /\
    sink writer2 = sink writer1 ++ elems (Data buffer1).
Proof.
  eexists. split; [reflexivity|]. cbv zeta.
  match goal with |- ?A /\ _ => assert (H : A) by (vm_compute; reflexivity) end.
  split; [exact H|].
  apply (Write_again_same_packet 2 BigEndian _ _ _ _ _
           (built_fresh 2 BigEndian _ eq_refl) H).
Defined.

Lemma Write_too_large_iff_witness :
  exists p0, PacketN 2 BigEndian = Ret p0 /\
  let p := SetMaxPacketSize p0 4 in
  let buffer := mkBuffer (mkSlice (bytes_of [0; 0; 1; 2; 3]) []) in
  ((exists w' b', Write p fresh_writer buffer = Ret (Some PacketTooLargeError, w', b'))
   <-> (MaxPacketSize p > 0 /\ slice_len (Data buffer) > MaxPacketSize p)).
Proof.
  eexists. split; [reflexivity|].
  apply (Write_too_large_iff 2 BigEndian).
  - apply built_SetMaxPacketSize, built_fresh. reflexivity.
  - vm_compute. discriminate.
  - discriminate.
Defined.

(** X14: what goes on the wire.  For a buffer that holds the [n]
    reserved bytes and then a payload that fits the header, [Write] to a
    working writer sends, in one call, the frame of the payload: its
    length in [n] bytes in the protocol's byte order, then the payload
    unchanged. *)
Theorem Write_sends_frame (width : Z) (order : ByteOrder) (p : SimpleProtocol)
    (writer : Writer) (buffer : Buffer) (reserved payload : list byte) :
  built width order p ->
  elems (Data buffer) = reserved ++ payload ->
  length reserved = Z.to_nat width ->
  Z.of_nat (length payload) < 2 ^ (8 * width) ->
  within_max p (slice_len (Data buffer)) ->
  broken writer = None ->
  exists writer' buffer',
    Write p writer buffer = Ret (None, writer', buffer') /\
    sink writer' = sink writer ++ frame order width payload /\
    wcalls writer' = S (wcalls writer) /\
    elems (Data buffer') = frame order width payload.
Proof.
  intros Hb He Hres Hfit Hm Hw.
  assert (Hpos : 0 < width)
    by (destruct (built_supported _ _ _ Hb) as [->|[->|[->| ->]]]; lia).
  assert (Hlen : slice_len (Data buffer) = width + Z.of_nat (length payload)).
  { unfold slice_len. rewrite He, length_app, Hres. lia. }
  rewrite (Write_stamps width order p writer buffer Hb Hm) by lia.
  rewrite Hlen, He, drop_app_length' by (symmetry; exact Hres).
  replace (width + Z.of_nat (length payload) - width)
    with (Z.of_nat (length payload)) by lia.
  rewrite Z.mod_small by lia.
  unfold writer_Write. rewrite Hw. cbn [fst snd].
  eexists _, _. split; [reflexivity|]. cbn [sink wcalls Data elems].
  unfold frame. auto.
Qed.

Lemma Write_sends_frame_witness :
  exists p, PacketN 2 BigEndian = Ret p /\
  let buffer := mkBuffer (mkSlice (bytes_of [7; 7] ++ hello) []) in
  exists writer' buffer',
    Write p fresh_writer buffer = Ret (None, writer', buffer') /\
    sink writer' = sink fresh_writer ++ frame BigEndian 2 hello /\
    wcalls writer' = S (wcalls fresh_writer) /\
    elems (Data buffer') = frame BigEndian 2 hello.
Proof.
  eexists. split; [reflexivity|].
  apply (Write_sends_frame 2 BigEndian _ _ _ (bytes_of [7; 7]) hello).
  - apply built_fresh. reflexivity.
  - reflexivity.
  - reflexivity.
  - vm_compute. reflexivity.
  - left. simpl. lia.
  - reflexivity.
Defined.

(** ** More on [Packet] *)





(** ** More on the header closures *)

(** X1: the two closures of a protocol are inverse to each other on
    lengths that fit.  [encodeHead] overwrites the first [n] bytes of the
    region and nothing else, and [decodeHead] on those bytes gives back
    the length of what follows them. *)
Theorem header_roundtrip (width : Z) (order : ByteOrder) (p : SimpleProtocol)
    (region : list byte) :
  built width order p ->
  width <= Z.of_nat (length region) ->
  Z.of_nat (length region) - width < 2 ^ (8 * width) ->
  Z.of_nat (length region) - width <= max_int ->
  exists stamped,
    encodeHead p region = Ret stamped /\
    length stamped = length region /\
    drop (Z.to_nat width) stamped = drop (Z.to_nat width) region /\
    decodeHead p (take (Z.to_nat width) stamped)
      = Ret (Z.of_nat (length region) - width).
Proof.
  intros Hb Hl Hfit Hint.
  assert (Hpos : 0 < width)
    by (destruct (built_supported _ _ _ Hb) as [->|[->|[->| ->]]]; lia).
  rewrite (built_encodeHead width order) by (auto; lia).
  rewrite Z.mod_small by lia.
  set (hdr := header_bytes order (Z.of_nat (length region) - width) (Z.to_nat width)).
  assert (Hh : length hdr = Z.to_nat width) by apply length_header_bytes.
  eexists. split; [reflexivity|].
  rewrite length_app, length_drop, Hh.
  rewrite take_app_length', drop_app_length' by (symmetry; exact Hh).
  split; [lia|]. split; [reflexivity|].
  rewrite (built_decodeHead width order) by assumption.
  unfold hdr. rewrite uint_value_header_bytes, Z2Nat.id by lia.
  rewrite Z.mod_small by lia. rewrite to_int_small by lia. reflexivity.
Qed.

Lemma header_roundtrip_witness :
  exists p, PacketN 4 LittleEndian = Ret p /\
  let region := bytes_of [9; 9; 9; 9] ++ replicate 300 x01 in
  exists stamped,
    encodeHead p region = Ret stamped /\
    length stamped = length region /\
    drop (Z.to_nat 4) stamped = drop (Z.to_nat 4) region /\
    decodeHead p (take (Z.to_nat 4) stamped) = Ret (Z.of_nat (length region) - 4).
Proof.
  eexists. split; [reflexivity|].
  apply (header_roundtrip 4 LittleEndian).
  - apply built_fresh. reflexivity.
  - vm_compute. discriminate.
  - vm_compute. reflexivity.
  - vm_compute. discriminate.
Defined.

(** X2: the two byte orders mirror each other.  On the same region a
    big-endian protocol stamps the reverse of the header a little-endian
    protocol of the same width stamps, the rest of the region being the
    same; and each decodes a header to what the other decodes from the
    reversed header. *)
Theorem byte_orders_mirror (width : Z) (pb pl : SimpleProtocol) (region : list byte) :
  built width BigEndian pb ->
  built width LittleEndian pl ->
  width <= Z.of_nat (length region) ->
  exists hdr,
    length hdr = Z.to_nat width /\
    encodeHead pl region = Ret (hdr ++ drop (Z.to_nat width) region) /\
    encodeHead pb region = Ret (rev hdr ++ drop (Z.to_nat width) region) /\
    forall h, length h = Z.to_nat width ->
              decodeHead pb h = decodeHead pl (rev h).
Proof.
  intros Hpb Hpl Hl.
  assert (Hpos : 0 < width)
    by (destruct (built_supported _ _ _ Hpb) as [->|[->|[->| ->]]]; lia).
  rewrite (built_encodeHead width LittleEndian pl) by (auto; lia).
  rewrite (built_encodeHead width BigEndian pb) by (auto; lia).
  eexists. split; [apply (length_header_bytes LittleEndian)|].
  split; [reflexivity|]. split; [reflexivity|].
  intros h Hh.
  rewrite (built_decodeHead width BigEndian pb) by assumption.
  rewrite (built_decodeHead width LittleEndian pl)
    by (assumption || (rewrite length_rev; assumption)).
  reflexivity.
Qed.

Lemma byte_orders_mirror_witness :
  exists pb pl,
    PacketN 2 BigEndian = Ret pb /\ PacketN 2 LittleEndian = Ret pl /\
    let region := bytes_of [0; 0] ++ replicate 258 x01 in
    exists hdr,
      length hdr = Z.to_nat 2 /\
      encodeHead pl region = Ret (hdr ++ drop (Z.to_nat 2) region) /\
      encodeHead pb region = Ret (rev hdr ++ drop (Z.to_nat 2) region) /\
      forall h, length h = Z.to_nat 2 ->
                decodeHead pb h = decodeHead pl (rev h).
Proof.
  eexists _, _. split; [reflexivity|]. split; [reflexivity|].
  apply (byte_orders_mirror 2).
  - apply built_fresh. reflexivity.
  - apply built_fresh. reflexivity.
  - vm_compute. discriminate.
Defined.

(** ** Sending and receiving, continued *)





Lemma Read_empty_packet_witness :
  exists p0, PacketN 2 LittleEndian = Ret p0 /\
  let p := SetMaxPacketSize p0 3 in
  let r := stream_reader [bytes_of [0]; bytes_of [0; 5]] in
  let b := mkBuffer (mkSlice (bytes_of [1; 2]) []) in
  exists p' r' b',
    Read p r b = Ret (None, p', r', b') /\
    slice_len (Data b') = 0 /\
    ReadFull r (Z.to_nat 2) = (bytes_of [0; 0], None, r') /\
    remaining r' = bytes_of [5].
Proof.
  eexists. split; [reflexivity|].
  apply (Read_empty_packet 2 LittleEndian).
  - apply built_SetMaxPacketSize, built_fresh. reflexivity.
  - reflexivity.
  - reflexivity.
  - vm_compute. reflexivity.
Defined.
